(** * Track feature derivation in [process_map_data.py]

    A shallow embedding of the algorithmic core of [process_map_data.py]:
    the Douglas-Peucker simplifier [douglas_peucker], and the per-track and
    per-collection computations of [create_data] (selection of the surviving
    points, smoothed elevation, ascent and descent, duration, colours).

    Numbers.  Python floats are modelled as exact rationals [Q]: rounding,
    overflow, NaN and infinities are outside the model.  [math.sqrt] is a
    library function that has no rational counterpart; it is a parameter
    [sqrt] of the simplifier.  The smoothing of the elevations and the
    totals of ascent and descent are given a second time on binary64
    numbers, to show what rounding does to them.  Lists are Python lists,
    indexed from 0; slices [l[:k]] and [l[k:]] are [take k l] and
    [drop k l].

    Exceptions.  Code that can raise returns a [result]; Python's unbounded
    recursion is modelled with fuel, running out of it being the
    [RecursionError] the interpreter raises on runaway recursion. *)

From Stdlib Require Import QArith Qabs Qround ZArith Lia Lqa String Ascii.
From Stdlib Require Import DecimalString PrimFloat Uint63.
From stdpp Require Import base list.

(** ** Exceptions *)

Inductive exn : Type :=
  | IndexError
  | RecursionError
  | GeometryError.

Inductive result (A : Type) : Type :=
  | Ok (a : A)
  | Raise (e : exn).
Arguments Ok {A} a.
Arguments Raise {A} e.

#[global] Instance result_ret : MRet result := fun A a => Ok a.

#[global] Instance result_bind : MBind result := fun A B k m =>
  match m with
  | Ok a => k a
  | Raise e => Raise e
  end.

(** ** Numbers and points *)

(** Python's [a > b] on numbers. *)
Definition Qgtb (a b : Q) : bool :=
  match (a ?= b)%Q with
  | Gt => true
  | _ => false
  end.

(** A coordinate pair, the tuple [(p.latitude, p.longitude)]. *)
Definition point : Type := Q * Q.

(** Python's [==] on two such tuples: component-wise numeric equality. *)
Definition point_eqb (a b : point) : bool :=
  Qeq_bool a.1 b.1 && Qeq_bool a.2 b.2.

Definition origin : point := (0%Q, 0%Q).

(** ** The simplifier *)

Section Simplifier.

(** [math.sqrt]. *)
Variable sqrt : Q → Q.

(** [perpendicular_distance(pt, line_start, line_end)].  The division
    [num / den] raises [ZeroDivisionError] in Python when [den] is zero;
    [perpendicular_distance_den_nonzero] below shows that this branch is
    only reached with a non-zero divisor, so [Qdiv] is used. *)
Definition perpendicular_distance (pt line_start line_end : point) : Q :=
  if point_eqb line_start line_end
  then sqrt ((pt.1 - line_start.1) ^ 2 + (pt.2 - line_start.2) ^ 2)%Q
  else
    let '(x0, y0) := pt in
    let '(x1, y1) := line_start in
    let '(x2, y2) := line_end in
    let num := Qabs ((y2 - y1) * x0 - (x2 - x1) * y0 + x2 * y1 - y2 * x1)%Q in
    let den := sqrt ((y2 - y1) ^ 2 + (x2 - x1) ^ 2)%Q in
    (num / den)%Q.

(** One iteration of the [for i in range(1, len(points) - 1)] loop, on
    the loop state [(dmax, index)]. *)
Definition farthest_step (points : list point) (st : Q * nat) (i : nat)
  : Q * nat :=
  let d := perpendicular_distance (nth i points origin)
                                  (nth 0 points origin)
                                  (List.last points origin) in
  if Qgtb d st.1 then (d, i) else st.

(** The whole loop, from [dmax = 0.0] and [index = 0]. *)
Definition farthest (points : list point) : Q * nat :=
  foldl (farthest_step points) (0%Q, 0) (seq 1 (length points - 2)).

(** The inner function [simplify(points, epsilon)]. *)
Fixpoint simplify (fuel : nat) (points : list point) (epsilon : Q)
  : result (list point) :=
  match fuel with
  | O => Raise RecursionError
  | S fuel' =>
      let '(dmax, index) := farthest points in
      if Qgtb dmax epsilon
      then
        rec1 ← simplify fuel' (take (index + 1) points) epsilon;
        rec2 ← simplify fuel' (drop index points) epsilon;
        Ok (removelast rec1 ++ rec2)
      else
        match points with
        | [] => Raise IndexError
        | p0 :: _ => Ok [p0; List.last points p0]
        end
  end.

(** [douglas_peucker(points, epsilon)].  Every recursive call is on a
    strictly shorter list when [epsilon] is not negative, so one more than
    the length of the input is enough fuel ([simplify_spec]); with a
    negative [epsilon] the recursion of the source does not end. *)
Definition douglas_peucker (points : list point) (epsilon : Q)
  : result (list point) :=
  simplify (S (length points)) points epsilon.

End Simplifier.

(** ** Python lists *)

(** [l[i]] for a Python integer [i]: a negative index counts from the end,
    an index outside the list raises [IndexError]. *)
Definition py_index {A : Type} (l : list A) (i : Z) : result A :=
  let n := Z.of_nat (length l) in
  let j := if (i <? 0)%Z then (i + n)%Z else i in
  if ((0 <=? j)%Z && (j <? n)%Z)%bool
  then match l !! Z.to_nat j with
       | Some x => Ok x
       | None => Raise IndexError
       end
  else Raise IndexError.

(** [x in l] for a list of coordinate tuples. *)
Definition py_in (x : point) (l : list point) : bool :=
  existsb (point_eqb x) l.

(** [int(x)]: truncation towards zero. *)
Definition py_int (x : Q) : Z := Z.quot (Qnum x) (Zpos (Qden x)).

(** [round(x, ndigits)]: the multiple of [10 ** -ndigits] nearest to [x],
    the even one of the two when [x] is exactly half way. *)
Definition round_half_even (x : Q) : Z :=
  let below := Qfloor x in
  match (x - inject_Z below ?= 1 # 2)%Q with
  | Lt => below
  | Gt => (below + 1)%Z
  | Eq => if Z.even below then below else (below + 1)%Z
  end.

Definition py_round (x : Q) (ndigits : nat) : Q :=
  let scale := inject_Z (10 ^ Z.of_nat ndigits) in
  Qred (inject_Z (round_half_even (x * scale)) / scale).

(** ** Times *)

(** A [datetime] is the number of microseconds since the epoch.  A
    [timedelta] is kept normalised as Python keeps it:
    [0 <= seconds < 86400] and [0 <= microseconds < 1000000], the sign
    being carried by [days]. *)
Record timedelta : Type := mk_timedelta {
  days : Z;
  seconds : Z;
  microseconds : Z
}.

Definition timedelta_of_microseconds (us : Z) : timedelta :=
  {| days := (us / 86400000000)%Z;
     seconds := ((us mod 86400000000) / 1000000)%Z;
     microseconds := (us mod 1000000)%Z |}.

(** The value of a [timedelta], in microseconds. *)
Definition total_microseconds (d : timedelta) : Z :=
  (days d * 86400000000 + seconds d * 1000000 + microseconds d)%Z.

(** [end_time - start_time] on datetimes. *)
Definition datetime_sub (end_time start_time : Z) : timedelta :=
  timedelta_of_microseconds (end_time - start_time).

(** The constructor call [timedelta(seconds=s)]. *)
Definition timedelta_seconds (s : Z) : timedelta :=
  timedelta_of_microseconds (s * 1000000).

(** ** Tracks and features *)

(** A point of a parsed GPX track segment. *)
Record RawPoint : Type := mk_RawPoint {
  latitude : Q;
  longitude : Q;
  elevation : Q;
  time : Z
}.

Definition coords (p : RawPoint) : point := (latitude p, longitude p).

(** A GPX file after [gpxpy.parse]: its file name and the points of its
    first track. *)
Record Track : Type := mk_Track {
  filename : string;
  raw_points : list RawPoint
}.

(** The part of a GeoJSON feature that [create_data] computes itself; the
    links, the date, the place name and the grid reference, which are
    string formatting or come from other libraries, are left out, and the
    two distances are kept before [round(_, 2)]. *)
Record Feature : Type := mk_Feature {
  name : string;
  line_coords : list (Q * Q * Q * Q);
  distance_km : Q;
  distance_mi : Q;
  duration : timedelta;
  ascent : Z;
  descent : Z;
  center : point;
  start : point;
  cluster_label : option nat;
  colour : option string
}.

Definition set_cluster_label (l : nat) (f : Feature) : Feature :=
  {| name := name f; line_coords := line_coords f;
     distance_km := distance_km f; distance_mi := distance_mi f;
     duration := duration f; ascent := ascent f; descent := descent f;
     center := center f; start := start f;
     cluster_label := Some l; colour := colour f |}.

Definition set_colour (c : string) (f : Feature) : Feature :=
  {| name := name f; line_coords := line_coords f;
     distance_km := distance_km f; distance_mi := distance_mi f;
     duration := duration f; ascent := ascent f; descent := descent f;
     center := center f; start := start f;
     cluster_label := cluster_label f; colour := Some c |}.

(** ** The per-track computations of [create_data] *)

(** The smoothed elevation at [idx]: the body of the
    [for idx, val in enumerate(track_points)] loop.  The sum and the
    division are exact here; [sevenpoint_at_float] below rounds them. *)
Definition sevenpoint_at (track_points : list RawPoint) (max_index idx : Z)
  : result Q :=
  let ele (i : Z) : result Q :=
    p ← py_index track_points i; Ok (elevation p) in
  if ((idx =? 0)%Z || (idx =? max_index)%Z)%bool then
    ele idx
  else if ((idx =? 1)%Z || (idx =? max_index - 1)%Z)%bool then
    e0 ← ele idx;
    e1 ← ele (idx - 1)%Z;
    e2 ← ele (idx + 1)%Z;
    Ok ((e0 + e1 + e2) / 3)%Q
  else if ((idx =? 2)%Z || (idx =? max_index - 2)%Z)%bool then
    e0 ← ele idx;
    e1 ← ele (idx - 1)%Z;
    e2 ← ele (idx - 2)%Z;
    e3 ← ele (idx + 1)%Z;
    e4 ← ele (idx + 2)%Z;
    Ok ((e0 + e1 + e2 + e3 + e4) / 5)%Q
  else
    e0 ← ele idx;
    e1 ← ele (idx - 1)%Z;
    e2 ← ele (idx - 2)%Z;
    e3 ← ele (idx - 3)%Z;
    e4 ← ele (idx + 1)%Z;
    e5 ← ele (idx + 2)%Z;
    e6 ← ele (idx + 3)%Z;
    Ok ((e0 + e1 + e2 + e3 + e4 + e5 + e6) / 7)%Q.

(** The list [sevenpoint] after the loop. *)
Definition sevenpoint (track_points : list RawPoint) : result (list Q) :=
  let max_index := (Z.of_nat (length track_points) - 1)%Z in
  mapM (fun idx : nat => sevenpoint_at track_points max_index (Z.of_nat idx))
       (seq 0 (length track_points)).

(** One iteration of the loop over [sevenpoint] that accumulates
    [(total_ascent_m, total_descent_m)].  Both indices are inside the list
    whenever [idx] is positive. *)
Definition ascent_descent_step (sevenpoint : list Q) (st : Q * Q) (idx : nat)
  : Q * Q :=
  if bool_decide (idx ≠ 0) then
    let elevation_change := (nth idx sevenpoint 0 - nth (idx - 1) sevenpoint 0)%Q in
    if Qgtb elevation_change 0 then ((st.1 + elevation_change)%Q, st.2)
    else if Qgtb 0 elevation_change then (st.1, (st.2 + elevation_change)%Q)
    else st
  else st.

Definition ascent_descent (sevenpoint : list Q) : Q * Q :=
  foldl (ascent_descent_step sevenpoint) (0%Q, 0%Q) (seq 0 (length sevenpoint)).

(** The binary64 number that stands for a rational of the model, as
    Python reads it from a decimal numeral: the quotient of numerator and
    denominator, rounded to the nearest float (both below 2 ** 53). *)
Definition float_of_Z (z : Z) : float :=
  match z with
  | Z0 => 0%float
  | Zpos _ => of_uint63 (Uint63.of_Z z)
  | Zneg p => (- of_uint63 (Uint63.of_Z (Zpos p)))%float
  end.

Definition float_of_Q (x : Q) : float :=
  (float_of_Z (Qnum x) / float_of_Z (Zpos (Qden x)))%float.

Definition elevations_float (track_points : list RawPoint) : list float :=
  map (fun p => float_of_Q (elevation p)) track_points.

(** The same two loops on the binary64 numbers the interpreter computes
    with, [elevations] being the list of the [p.elevation] of
    [track_points]: every [+], [-] and [/] rounds to the nearest float. *)
Definition sevenpoint_at_float (elevations : list float) (max_index idx : Z)
  : result float :=
  let ele (i : Z) : result float := py_index elevations i in
  if ((idx =? 0)%Z || (idx =? max_index)%Z)%bool then
    ele idx
  else if ((idx =? 1)%Z || (idx =? max_index - 1)%Z)%bool then
    e0 ← ele idx;
    e1 ← ele (idx - 1)%Z;
    e2 ← ele (idx + 1)%Z;
    Ok ((e0 + e1 + e2) / 3)%float
  else if ((idx =? 2)%Z || (idx =? max_index - 2)%Z)%bool then
    e0 ← ele idx;
    e1 ← ele (idx - 1)%Z;
    e2 ← ele (idx - 2)%Z;
    e3 ← ele (idx + 1)%Z;
    e4 ← ele (idx + 2)%Z;
    Ok ((e0 + e1 + e2 + e3 + e4) / 5)%float
  else
    e0 ← ele idx;
    e1 ← ele (idx - 1)%Z;
    e2 ← ele (idx - 2)%Z;
    e3 ← ele (idx - 3)%Z;
    e4 ← ele (idx + 1)%Z;
    e5 ← ele (idx + 2)%Z;
    e6 ← ele (idx + 3)%Z;
    Ok ((e0 + e1 + e2 + e3 + e4 + e5 + e6) / 7)%float.

Definition sevenpoint_float (elevations : list float) : result (list float) :=
  let max_index := (Z.of_nat (length elevations) - 1)%Z in
  mapM (fun idx : nat => sevenpoint_at_float elevations max_index (Z.of_nat idx))
       (seq 0 (length elevations)).

Definition ascent_descent_step_float (sevenpoint : list float)
  (st : float * float) (idx : nat) : float * float :=
  if bool_decide (idx ≠ 0) then
    let elevation_change :=
      (nth idx sevenpoint 0 - nth (idx - 1) sevenpoint 0)%float in
    if (0 <? elevation_change)%float then
      ((st.1 + elevation_change)%float, st.2)
    else if (elevation_change <? 0)%float then
      (st.1, (st.2 + elevation_change)%float)
    else st
  else st.

Definition ascent_descent_float (sevenpoint : list float) : float * float :=
  foldl (ascent_descent_step_float sevenpoint) (0%float, 0%float)
        (seq 0 (length sevenpoint)).

(** [duration]: the difference of the last and the first time, then
    [timedelta(seconds=duration.seconds)]. *)
Definition track_duration (track_points : list RawPoint) : result timedelta :=
  first ← py_index track_points 0%Z;
  final ← py_index track_points (-1)%Z;
  let duration := datetime_sub (time final) (time first) in
  Ok (timedelta_seconds (seconds duration)).

Section CreateData.

(** [math.sqrt], used by the simplifier. *)
Variable sqrt : Q → Q.

(** [distance.distance(a, b).km] and [distance.distance(a, b).miles] of
    geopy. *)
Variable geodesic_km : point → point → Q.
Variable geodesic_miles : point → point → Q.

(** [LineString(coordinates).centroid] of shapely, which may reject its
    argument. *)
Variable centroid : list point → result point.

(** [geojson.LineString(line_coords)]: the geometry of the feature holds
    every number of every coordinate as [round(x, 6)], 6 being the default
    precision of the library. *)
Definition geojson_LineString (line_coords : list (Q * Q * Q * Q))
  : list (Q * Q * Q * Q) :=
  map (fun c => (py_round c.1.1.1 6, py_round c.1.1.2 6,
                 py_round c.1.2 6, py_round c.2 6))
      line_coords.

(** [simplified_coords]: the simplifier on the coordinate pairs, with
    [epsilon=0.0001]. *)
Definition simplified_coords (raw_points : list RawPoint)
  : result (list point) :=
  douglas_peucker sqrt (map coords raw_points) (1 # 10000)%Q.

(** [track_points]: the raw points whose coordinate pair is [in] the
    simplified list. *)
Definition select_points (raw_points : list RawPoint)
  (simplified : list point) : list RawPoint :=
  List.filter (fun p => py_in (coords p) simplified) raw_points.

Definition track_points (raw_points : list RawPoint)
  : result (list RawPoint) :=
  simplified ← simplified_coords raw_points;
  Ok (select_points raw_points simplified).

(** [cumulative_distances]: the running sum of the distances in miles,
    the loop state being [(total_distance, cumulative_distances)]. *)
Definition cumulative_step (track_points : list RawPoint)
  (st : Q * list Q) (i : nat) : Q * list Q :=
  let coord1 := coords (nth (i - 1) track_points (mk_RawPoint 0 0 0 0)) in
  let coord2 := coords (nth i track_points (mk_RawPoint 0 0 0 0)) in
  let total_distance := (st.1 + geodesic_miles coord1 coord2)%Q in
  (total_distance, st.2 ++ [total_distance]).

Definition cumulative_distances (track_points : list RawPoint) : list Q :=
  (foldl (cumulative_step track_points) (0%Q, [0%Q])
         (seq 1 (length track_points - 1))).2.

(** [total_distance_km] and [total_distance_mi]: two separate loops over
    [range(len(track_points) - 1)]. *)
Definition total_distance (unit : point → point → Q)
  (track_points : list RawPoint) : Q :=
  foldl (fun total i =>
           (total + unit (coords (nth i track_points (mk_RawPoint 0 0 0 0)))
                         (coords (nth (i + 1) track_points (mk_RawPoint 0 0 0 0))))%Q)
        0%Q (seq 0 (length track_points - 1)).

Definition total_distance_km := total_distance geodesic_km.
Definition total_distance_mi := total_distance geodesic_miles.

(** The body of the [for filename in file_list] loop: the feature built
    from one GPX file.  No statement of the body is inside a [try].  The
    field [line_coords] is the geometry [geojson.LineString(line_coords)]
    of the feature; the distances are stored as [round(total, 2)].  The
    properties that are text derived from the file name and the starting
    point (date, grid reference, place name, links) are not part of
    [Feature], and the calls that compute them are taken to return. *)
Definition process_track (t : Track) : result Feature :=
  points ← track_points (raw_points t);
  let cumulative := cumulative_distances points in
  let line :=
    imap (fun i p => (longitude p, latitude p, elevation p,
                      nth i cumulative 0%Q)) points in
  smoothed ← sevenpoint points;
  let totals := ascent_descent smoothed in
  let coordinates := map coords points in
  center_point ← centroid coordinates;
  starting_point ← py_index coordinates 0%Z;
  time_taken ← track_duration points;
  Ok {| name := substring 0 (String.length (filename t) - 4) (filename t);
        line_coords := geojson_LineString line;
        distance_km := py_round (total_distance_km points) 2;
        distance_mi := py_round (total_distance_mi points) 2;
        duration := time_taken;
        ascent := py_int totals.1;
        descent := py_int totals.2;
        center := center_point;
        start := starting_point;
        cluster_label := None;
        colour := None |}.

(** The loop itself: each feature is appended to [features]; an
    exception raised by the body leaves the loop and [create_data]. *)
Fixpoint process_files (file_list : list Track) (features : list Feature)
  : result (list Feature) :=
  match file_list with
  | [] => Ok features
  | t :: rest =>
      feature ← process_track t;
      process_files rest (features ++ [feature])
  end.

End CreateData.

(** ** Colours *)

Definition colours : list string :=
  ["darkred"; "green"; "red"; "blue"; "gray"; "purple"; "black";
   "cadetblue"; "darkgreen"; "orange"; "darkblue"]%string.

(** [num_clusters]. *)
Definition num_clusters (features : list Feature) : nat :=
  length features / length colours + 1.

(** The loop that stores [labels[i]], the label KMeans gave to the
    [i]-th start point, in the [i]-th feature. *)
Definition label_features (labels : list nat) (features : list Feature)
  : list Feature :=
  zip_with set_cluster_label labels features.

(** One pass of the inner loop [for feature in features] for cluster [i],
    on the state [(colour_idx, features seen so far)]. *)
Definition colour_step (i : nat) (st : nat * list Feature) (feature : Feature)
  : nat * list Feature :=
  if bool_decide (cluster_label feature = Some i)
  then (st.1 + 1,
        st.2 ++ [set_colour (nth (st.1 mod length colours) colours ""%string)
                            feature])
  else (st.1, st.2 ++ [feature]).

Definition colour_cluster (features : list Feature) (i : nat) : list Feature :=
  (foldl (colour_step i) (0, []) features).2.

(** The outer loop [for i in range(num_clusters)]. *)
Definition assign_colours (clusters : nat) (features : list Feature)
  : list Feature :=
  foldl colour_cluster features (seq 0 clusters).

(** ** Choice of the files to process, in [create_data] *)

(** [s.endswith(suffix)]. *)
Definition endswith (s suffix : string) : bool :=
  (String.length suffix <=? String.length s)
  && String.eqb (substring (String.length s - String.length suffix)
                           (String.length suffix) s)
                suffix.

(** [x in l] for a list of strings. *)
Definition py_str_in (x : string) (l : list string) : bool :=
  existsb (String.eqb x) l.

(** [existing_track_list]: the file names of the features already in the
    collection. *)
Definition existing_track_list (features : list Feature) : list string :=
  map (fun feature => (name feature ++ ".gpx")%string) features.

(** [file_list]: the listing of the input directory, filtered and
    reversed. *)
Definition select_files (listing : list string) (features : list Feature)
  : list string :=
  rev (List.filter
         (fun filename =>
            endswith filename ".gpx"
            && negb (py_str_in filename (existing_track_list features)))
         listing).

(** ** [save_tracks_as_elevation_profiles]: the top of the y-axis *)

(** [x % m] on numbers, for a positive [m]. *)
Definition py_mod (x m : Q) : Q :=
  (x - m * inject_Z (Qfloor (x / m)))%Q.

(** The two loops that find the maximum elevation of all tracks, [i[2]]
    being the elevation of the sample [i]. *)
Definition max_elevation_step (max_elevation : Q) (i : Q * Q * Q * Q) : Q :=
  if Qgtb i.1.2 max_elevation then i.1.2 else max_elevation.

Definition max_elevation (features : list Feature) : Q :=
  foldl (fun m feature => foldl max_elevation_step m (line_coords feature))
        0%Q features.

(** The maximum rounded up to the nearest 100, as passed to [plt.ylim]. *)
Definition axis_top (features : list Feature) : Q :=
  let max_elevation := max_elevation features in
  let remainder := py_mod max_elevation 100 in
  if negb (Qeq_bool remainder 0)
  then (max_elevation + (100 - remainder))%Q
  else max_elevation.

(** ** [save_tracks_as_gpx] *)

(** [s.replace(old, new)] for an [old] of one character. *)
Fixpoint replace_char (old : ascii) (new : string) (s : string) : string :=
  match s with
  | EmptyString => EmptyString
  | String c s' =>
      if Ascii.eqb c old
      then (new ++ replace_char old new s')%string
      else String c (replace_char old new s')
  end.

(** [track_name], also used for the elevation profiles. *)
Definition track_name (feature : Feature) : string :=
  replace_char "@" "_" (replace_char " " "" (name feature)).

(** An [xml.etree.ElementTree.Element]. *)
#[warnings="-register-all"]
Inductive xml : Type :=
  | Element (tag : string) (attrib : list (string * string))
            (text : option string) (children : list xml).

Section SaveTracksAsGpx.

(** [str] on a float. *)
Variable str : Q → string.

(** The [trkpt] element of one sample [point = (lon, lat, ele, miles)]. *)
Definition trkpt_of (point : Q * Q * Q * Q) : xml :=
  Element "trkpt" [("lat", str point.1.1.2); ("lon", str point.1.1.1)]%string
          None
          [Element "ele" [] (Some (str point.1.2)) []].

(** The document written for one feature. *)
Definition gpx_of (feature : Feature) : xml :=
  Element "gpx"
    [("version", "1.1"); ("creator", "Your Creator Name")]%string None
    [Element "trk" [] None
       [Element "trkseg" [] None (map trkpt_of (line_coords feature))]].

(** The files written, as pairs of a file name inside [track_downloads]
    and a document, in the order of writing. *)
Definition save_tracks_as_gpx (features : list Feature)
  : list (string * xml) :=
  map (fun feature => ((track_name feature ++ ".gpx")%string, gpx_of feature))
      features.

End SaveTracksAsGpx.

(** [download_link] of [create_data], which is left out of [Feature]. *)
Definition download_link (t : Track) : string :=
  ("https://moorwalkers.github.io/track_downloads/"
   ++ replace_char "@" "_"
        (replace_char " " ""
           (substring 0 (String.length (filename t) - 4) (filename t)))
   ++ ".gpx")%string.

(** ** [create_tracks_content_page]: the colour of the grid box *)

Definition Qltb (a b : Q) : bool := Qgtb b a.
Definition Qgeb (a b : Q) : bool := negb (Qgtb b a).

Definition grid_colour (distance_mi : Q) : string :=
  let grid_colour := ""%string in
  let grid_colour :=
    if Qltb distance_mi 5 then "#C0FFC0"%string else grid_colour in
  let grid_colour :=
    if Qgeb distance_mi 5 && Qltb distance_mi 6
    then "#90EE90"%string else grid_colour in
  let grid_colour :=
    if Qgeb distance_mi 6 && Qltb distance_mi 7
    then "#F1C40F"%string else grid_colour in
  let grid_colour :=
    if Qgeb distance_mi 7 then "#FFA07A"%string else grid_colour in
  grid_colour.

(** ** [filter_by_date] of [extract_quiz_stats.py] *)

(** A naive [datetime] is a number of microseconds; a date, as in
    ['YYYY-MM-DD'], is a number of days, and [datetime.fromisoformat] of
    a date is its midnight. *)
Definition midnight (date : Z) : Z := (date * 86400000000)%Z.

Section FilterByDate.

(** The features and their parsed ['date'] property. *)
Variable walk : Type.
Variable walk_date : walk → Z.

(** One iteration of the loop, on the list [filtered]; [start_dt] and
    [end_dt] are [None] for a configuration value that is [None]. *)
Definition filter_step (start_dt end_dt : option Z) (filtered : list walk)
  (feature : walk) : list walk :=
  if match start_dt with
     | Some start => (walk_date feature <? start)%Z
     | None => false
     end
  then filtered
  else if match end_dt with
          | Some stop => (walk_date feature >? stop)%Z
          | None => false
          end
  then filtered
  else filtered ++ [feature].

(** [filter_by_date(features)], the two configuration values
    [START_DATE] and [END_DATE] being parameters. *)
Definition filter_by_date (START_DATE END_DATE : option Z)
  (features : list walk) : list walk :=
  match START_DATE, END_DATE with
  | None, None => features
  | _, _ =>
      foldl (filter_step (midnight <$> START_DATE) (midnight <$> END_DATE))
            [] features
  end.

(** The test that a feature passes both [if] statements of the loop. *)
Definition in_range (start_dt end_dt : option Z) (feature : walk) : bool :=
  negb (match start_dt with
        | Some start => (walk_date feature <? start)%Z
        | None => false
        end)
  && negb (match end_dt with
           | Some stop => (walk_date feature >? stop)%Z
           | None => false
           end).

End FilterByDate.

(** ** The smoothing rule of the specification *)

(** The window rule as the specification words it, to be compared with
    [sevenpoint]: the half-width of the window at index [i] of a series
    with last index [max_index] ... *)
Definition half_width (max_index i : Z) : nat :=
  if ((i =? 0)%Z || (i =? max_index)%Z)%bool then 0
  else if ((i =? 1)%Z || (i =? max_index - 1)%Z)%bool then 1
  else if ((i =? 2)%Z || (i =? max_index - 2)%Z)%bool then 2
  else 3.

Definition Qsum (l : list Q) : Q := foldr Qplus 0%Q l.

(** ... and the mean of the elevations at the indices [i-k, ..., i+k]. *)
Definition window_mean (ele : list Q) (i k : nat) : Q :=
  (Qsum (take (2 * k + 1) (drop (i - k) ele))
   / inject_Z (Z.of_nat (2 * k + 1)))%Q.

Definition smoothed_spec (ele : list Q) (i : nat) : Q :=
  window_mean ele i (half_width (Z.of_nat (length ele) - 1) (Z.of_nat i)).

(** ** Auxiliary definitions *)

(** The loop of [farthest] run over the interior points themselves, [i]
    being the index of the head of [l] in the whole list. *)
Fixpoint scan (d : point → Q) (l : list point) (i : nat) (st : Q * nat)
  : Q * nat :=
  match l with
  | [] => st
  | x :: l' => scan d l' (S i) (if Qgtb (d x) st.1 then (d x, i) else st)
  end.

(** The number of features of cluster [i] in a list. *)
Definition cluster_size (i : nat) (features : list Feature) : nat :=
  length (List.filter (fun f => bool_decide (cluster_label f = Some i)) features).

(** An executable stand-in for [math.sqrt], exact on the rationals whose
    numerator times denominator is a perfect square and rounded down
    elsewhere; used to run the simplifier on concrete tracks. *)
Definition sqrt_floor (x : Q) : Q :=
  (Z.sqrt (Qnum x * Zpos (Qden x)) # Qden x)%Q.

(** Geodesic distances and centroid used to run [create_data] on concrete
    tracks: the taxicab distance, and the first point as centre of a line
    of at least two points. *)
Definition taxicab (a b : point) : Q :=
  (Qabs (a.1 - b.1) + Qabs (a.2 - b.2))%Q.

Definition first_of_line (l : list point) : result point :=
  match l with
  | p :: _ :: _ => Ok p
  | _ => Raise GeometryError
  end.

(** Concrete tracks.  A walker who stands still records the same
    coordinates twice. *)
Definition standing_track : list RawPoint :=
  [ mk_RawPoint (505 # 10) (-39 # 10) 100 0;
    mk_RawPoint (505 # 10) (-39 # 10) 100 5000000;
    mk_RawPoint (506 # 10) (-39 # 10) 104 65000000 ].

Definition one_point_track : Track :=
  mk_Track "2024-05-01 @ 10-00-00.gpx"
           [ mk_RawPoint (505 # 10) (-39 # 10) 100 0 ].

Definition two_point_track : Track :=
  mk_Track "2024-05-02 @ 10-00-00.gpx"
           [ mk_RawPoint (505 # 10) (-39 # 10) 100 0;
             mk_RawPoint (506 # 10) (-39 # 10) 104 60000000 ].

(** The feature of a track of one point, when the geometry library
    accepts the line. *)
Definition one_point_feature (t : Track) (p : RawPoint) (c : point)
  : Feature :=
  {| name := substring 0 (String.length (filename t) - 4) (filename t);
     line_coords :=
       [(py_round (longitude p) 6, py_round (latitude p) 6,
         py_round (elevation p) 6, 0%Q)];
     distance_km := 0; distance_mi := 0;
     duration := mk_timedelta 0 0 0;
     ascent := 0; descent := 0;
     center := c; start := coords p;
     cluster_label := None; colour := None |}.

(** A track that is left recording overnight: 25 hours between its first
    and its last point. *)
Definition overnight_track : list RawPoint :=
  [ mk_RawPoint (505 # 10) (-39 # 10) 100 0;
    mk_RawPoint (506 # 10) (-39 # 10) 104 90000000000 ].

(** The value that [sevenpoint] holds at index [i]. *)
Definition smooth_value (track_points : list RawPoint) (i : nat) : Q :=
  match sevenpoint_at track_points (Z.of_nat (length track_points) - 1)
                      (Z.of_nat i) with
  | Ok q => q
  | Raise _ => 0%Q
  end.

(** The duration as the specification words it: the exact difference of
    the two times, in microseconds, floored to whole seconds. *)
Definition floor_seconds (difference : Z) : timedelta :=
  timedelta_of_microseconds (difference / 1000000 * 1000000).

(** The colour of the [k]-th track of a cluster. *)
Definition palette (k : nat) : string :=
  nth (k mod length colours) colours ""%string.

(** One pass of the colouring loop for cluster [i], as a recursion over the
    features, [k] being the value of [colour_idx]. *)
Fixpoint paint (i k : nat) (features : list Feature) : list Feature :=
  match features with
  | [] => []
  | f :: rest =>
      if bool_decide (cluster_label f = Some i)
      then set_colour (palette k) f :: paint i (S k) rest
      else f :: paint i k rest
  end.

(** Twelve features that only carry a name, and the labels of a
    clustering of them into [num_clusters] = 2 clusters. *)
Definition unlabelled (nm : string) : Feature :=
  {| name := nm; line_coords := [];
     distance_km := 0; distance_mi := 0;
     duration := mk_timedelta 0 0 0;
     ascent := 0; descent := 0;
     center := origin; start := origin;
     cluster_label := None; colour := None |}.

Definition twelve_walks : list Feature :=
  label_features [0; 1; 0; 0; 1; 1; 0; 1; 0; 0; 1; 0]
    (map unlabelled
       ["2024-05-12"; "2024-05-11"; "2024-05-10"; "2024-05-09";
        "2024-05-08"; "2024-05-07"; "2024-05-06"; "2024-05-05";
        "2024-05-04"; "2024-05-03"; "2024-05-02"; "2024-05-01"]%string).

(** A line with a spike in the middle, and a steady climb of seven
    points. *)
Definition zigzag : list point :=
  [ (0, 0); (1, 0); (2, 3); (3, 0); (4, 0) ]%Q.

Definition climb : list RawPoint :=
  [ mk_RawPoint (505 # 10) (-39 # 10) 100 0;
    mk_RawPoint (506 # 10) (-39 # 10) 101 60000000;
    mk_RawPoint (507 # 10) (-39 # 10) 102 120000000;
    mk_RawPoint (508 # 10) (-39 # 10) 103 180000000;
    mk_RawPoint (509 # 10) (-39 # 10) 104 240000000;
    mk_RawPoint (510 # 10) (-39 # 10) 105 300000000;
    mk_RawPoint (511 # 10) (-39 # 10) 106 360000000 ].

(** A distance provider for running the totals: kilometres by [taxicab],
    and miles as 0.621371 times the kilometres. *)
Definition miles_per_km : Q := 621371 # 1000000.

Definition taxicab_miles (a b : point) : Q :=
  (miles_per_km * taxicab a b)%Q.

(** [x] lies within [epsilon] of the line through two neighbouring points
    of [out], the distance being the one the simplifier measures. *)
Definition covered (sqrt : Q → Q) (epsilon : Q) (out : list point) (x : point)
  : Prop :=
  ∃ l1 a b l2, out = l1 ++ a :: b :: l2
               ∧ (perpendicular_distance sqrt x a b <= epsilon)%Q.

(** The running totals that the loop of [cumulative_distances] appends,
    from the total [t] and the index [i] on, for [m] iterations. *)
Fixpoint running_totals (miles : point → point → Q)
  (track_points : list RawPoint) (t : Q) (i m : nat) : list Q :=
  match m with
  | O => []
  | S m' =>
      let t' :=
        (t + miles (coords (nth (i - 1) track_points (mk_RawPoint 0 0 0 0)))
                   (coords (nth i track_points (mk_RawPoint 0 0 0 0))))%Q in
      t' :: running_totals miles track_points t' (S i) m'
  end.

(** Twelve features in one cluster, a straight line of four points, a
    listing of the input directory and a parser that finds the points of
    [two_point_track] in every file. *)
Definition crowded_walks : list Feature :=
  label_features (repeat 0 12) twelve_walks.

Definition straight : list point := [ (1, 0); (2, 0) ]%Q.

Definition listing_example : list string :=
  [ "2024-05-02 @ 10-00-00.gpx"; "notes.txt"; "2024-05-03 @ 09-30-00.gpx" ]%string.

Definition parse_example (filename : string) : list RawPoint :=
  raw_points two_point_track.

(** A stand-in for [str] on a float: numerator and denominator. *)
Definition str_fraction (x : Q) : string :=
  (NilZero.string_of_int (Z.to_int (Qnum x)) ++ "/"
   ++ NilZero.string_of_uint (Pos.to_uint (Qden x)))%string.

(** Seven points along a zigzag path, each of which survives the
    simplifier, that rise by 0.1 m from one to the next, 0.6 m in all. *)
Definition gentle : list RawPoint :=
  [ mk_RawPoint (50500 # 1000) (-3900 # 1000) (1000 # 10) 0;
    mk_RawPoint (50501 # 1000) (-3899 # 1000) (1001 # 10) 60000000;
    mk_RawPoint (50502 # 1000) (-3900 # 1000) (1002 # 10) 120000000;
    mk_RawPoint (50503 # 1000) (-3899 # 1000) (1003 # 10) 180000000;
    mk_RawPoint (50504 # 1000) (-3900 # 1000) (1004 # 10) 240000000;
    mk_RawPoint (50505 # 1000) (-3899 # 1000) (1005 # 10) 300000000;
    mk_RawPoint (50506 # 1000) (-3900 # 1000) (1006 # 10) 360000000 ].

(** Eight points along the same kind of path, all of them at 100.1 m. *)
Definition plateau : list RawPoint :=
  [ mk_RawPoint (50500 # 1000) (-3900 # 1000) (1001 # 10) 0;
    mk_RawPoint (50501 # 1000) (-3899 # 1000) (1001 # 10) 60000000;
    mk_RawPoint (50502 # 1000) (-3900 # 1000) (1001 # 10) 120000000;
    mk_RawPoint (50503 # 1000) (-3899 # 1000) (1001 # 10) 180000000;
    mk_RawPoint (50504 # 1000) (-3900 # 1000) (1001 # 10) 240000000;
    mk_RawPoint (50505 # 1000) (-3899 # 1000) (1001 # 10) 300000000;
    mk_RawPoint (50506 # 1000) (-3900 # 1000) (1001 # 10) 360000000;
    mk_RawPoint (50507 # 1000) (-3899 # 1000) (1001 # 10) 420000000 ].

(** The miles of a distance as geopy derives them from its kilometres:
    [kilometers / 1.609344]. *)
Definition km_per_mile : Q := 1609344 # 1000000.

Definition statute_miles (km : point → point → Q) (a b : point) : Q :=
  (km a b / km_per_mile)%Q.

(** The tolerance of the conversion by 0.621371, as a share of the
    kilometres. *)
Definition conversion_tolerance : Q := 2 # 10000000.

(** * Properties *)

(** ** Comparisons *)

Lemma Qgtb_true (a b : Q) : Qgtb a b = true ↔ (b < a)%Q.
Proof.
  unfold Qgtb. rewrite Qlt_alt, <- (Qcompare_antisym a b).
  destruct (a ?= b)%Q; simpl; split; congruence.
Qed.

Lemma Qgtb_false (a b : Q) : Qgtb a b = false ↔ (a <= b)%Q.
Proof.
  rewrite <- not_true_iff_false, Qgtb_true. split.
  - apply Qnot_lt_le.
  - intros H1 H2. exact (Qlt_not_le _ _ H2 H1).
Qed.

Lemma Qsquare_nonneg (q : Q) : (0 <= q * q)%Q.
Proof.
  destruct (Qlt_le_dec q 0) as [H|H].
  - assert (q * q == (- q) * (- q))%Q as -> by ring.
    apply Qmult_le_0_compat; lra.
  - by apply Qmult_le_0_compat.
Qed.

Lemma Qsquares_zero (a b : Q) : (a ^ 2 + b ^ 2 == 0)%Q → (a == 0 ∧ b == 0)%Q.
Proof.
  assert (∀ q : Q, (q ^ 2 == q * q)%Q) as E by (intros; reflexivity).
  rewrite !E. intros H.
  pose proof (Qsquare_nonneg a). pose proof (Qsquare_nonneg b).
  assert (a * a == 0)%Q as Ha by lra.
  assert (b * b == 0)%Q as Hb by lra.
  apply Qmult_integral in Ha, Hb. split; [destruct Ha | destruct Hb]; lra.
Qed.

(** ** The loop of the simplifier *)

Section SimplifierFacts.

Variable sqrt : Q → Q.

Lemma scan_app d l1 l2 i st :
  scan d (l1 ++ l2) i st = scan d l2 (i + length l1) (scan d l1 i st).
Proof.
  revert i st. induction l1 as [|x l1 IH]; intros i st; simpl.
  - by rewrite Nat.add_0_r.
  - rewrite IH. f_equal. lia.
Qed.

(** The loop of the source, indexed by position, is [scan] over the
    interior points. *)
Lemma farthest_step_scan points d l st i :
  (∀ k x, l !! k = Some x →
     perpendicular_distance sqrt (nth (i + k) points origin)
       (nth 0 points origin) (List.last points origin) = d x) →
  foldl (farthest_step sqrt points) st (seq i (length l)) = scan d l i st.
Proof.
  revert st i. induction l as [|x l IH]; intros st i Hd; simpl; [done|].
  rewrite <- IH.
  - f_equal. unfold farthest_step.
    rewrite <- (Hd 0 x eq_refl), Nat.add_0_r. done.
  - intros k y Hk. rewrite <- (Hd (S k) y Hk). do 2 f_equal. lia.
Qed.

Lemma last_cons_app (p0 : point) mid pl dflt :
  List.last (p0 :: mid ++ [pl]) dflt = pl.
Proof. by rewrite app_comm_cons, last_last. Qed.

Lemma farthest_scan p0 mid pl :
  farthest sqrt (p0 :: mid ++ [pl])
  = scan (fun x => perpendicular_distance sqrt x p0 pl) mid 1 (0%Q, 0).
Proof.
  unfold farthest.
  replace (length (p0 :: mid ++ [pl]) - 2) with (length mid)
    by (simpl; rewrite length_app; simpl; lia).
  apply farthest_step_scan. intros k x Hk.
  rewrite last_cons_app. simpl.
  rewrite app_nth1 by (by apply lookup_lt_Some in Hk).
  by rewrite (nth_lookup_Some _ _ _ _ Hk).
Qed.

(** *** What the loop returns *)

Lemma Forall_sublist (P : point → Prop) l1 l2 :
  l1 `sublist_of` l2 → Forall P l2 → Forall P l1.
Proof.
  rewrite !Forall_forall. intros Hsub H x Hx.
  apply H. by eapply elem_of_sublist.
Qed.

(** The returned maximum bounds the start value and every distance seen;
    the returned index is the start index, with the start value still in
    place, or a position of the part scanned. *)
Lemma scan_inv d l i m j M j' :
  scan d l i (m, j) = (M, j') →
  (m <= M)%Q ∧ Forall (fun y => (d y <= M)%Q) l
  ∧ ((j' = j ∧ M = m) ∨ (i ≤ j' < i + length l)).
Proof.
  revert i m j. induction l as [|x l IH]; intros i m j H; simpl in *.
  - injection H as <- <-. split; [apply Qle_refl|]. split; [constructor|].
    by left.
  - destruct (Qgtb (d x) m) eqn:Hx; apply IH in H as (Hm & Hall & Hj).
    + apply Qgtb_true in Hx. split; [|split].
      * apply Qlt_le_weak. by eapply Qlt_le_trans.
      * by constructor.
      * right. destruct Hj as [[-> _]|Hj]; lia.
    + apply Qgtb_false in Hx. split; [done|split].
      * constructor; [|done]. by eapply Qle_trans.
      * destruct Hj as [Hj|Hj]; [by left | right; lia].
Qed.

Lemma scan_upper d l i m j b :
  Forall (fun y => (d y <= b)%Q) l → (m <= b)%Q →
  ((scan d l i (m, j)).1 <= b)%Q.
Proof.
  revert i m j. induction l as [|x l IH]; intros i m j Hall Hm; simpl.
  - done.
  - inversion_clear Hall.
    destruct (Qgtb (d x) m); by apply IH.
Qed.

Lemma scan_noupdate d l i m j :
  Forall (fun y => (d y <= m)%Q) l → scan d l i (m, j) = (m, j).
Proof.
  revert i. induction l as [|x l IH]; intros i Hall; simpl; [done|].
  inversion_clear Hall as [|? ? Hx Hl].
  apply Qgtb_false in Hx. rewrite Hx. by apply IH.
Qed.

(** If the loop over [l1 ++ x :: l2] stops at [x], it stops at [x] again
    when points are removed on either side of [x], with the same
    maximum. *)
Lemma scan_sublist d l1 x l2 M s1 s2 :
  scan d (l1 ++ x :: l2) 1 (0%Q, 0) = (M, 1 + length l1) →
  s1 `sublist_of` l1 → s2 `sublist_of` l2 →
  scan d (s1 ++ x :: s2) 1 (0%Q, 0) = (M, 1 + length s1).
Proof.
  intros H Hs1 Hs2. rewrite scan_app in H |- *.
  destruct (scan d l1 1 (0%Q, 0)) as [m1 j1] eqn:E1.
  pose proof (scan_inv _ _ _ _ _ _ _ E1) as (_ & Hl1 & Hj1).
  simpl in H. destruct (Qgtb (d x) m1) eqn:Hx; simpl in H.
  - apply scan_inv in H as (_ & Hl2 & [[_ ->]|Hj]); [|lia].
    apply Qgtb_true in Hx.
    destruct (scan d s1 1 (0%Q, 0)) as [m' j'] eqn:E'.
    assert (m' <= m1)%Q as Hm'.
    { change m' with (m', j').1. rewrite <- E'.
      apply scan_upper; [by eapply Forall_sublist|].
      by apply scan_inv in E1 as (? & _). }
    simpl. replace (Qgtb (d x) m') with true.
    + apply scan_noupdate. by eapply Forall_sublist.
    + symmetry. apply Qgtb_true. by eapply Qle_lt_trans.
  - apply scan_inv in H as (_ & _ & Hj). lia.
Qed.

(** With a non-negative tolerance, a maximum above it was found at an
    interior position. *)
Lemma scan_index d l M j epsilon :
  scan d l 1 (0%Q, 0) = (M, j) → (0 <= epsilon)%Q →
  Qgtb M epsilon = true → 1 ≤ j ≤ length l.
Proof.
  intros H Heps HM. apply Qgtb_true in HM.
  apply scan_inv in H as (_ & _ & [[-> ->]|Hj]); [|lia].
  exfalso. exact (Qlt_not_le _ _ HM Heps).
Qed.

(** *** The recursion *)

Lemma simplify_S fuel points epsilon :
  simplify sqrt (S fuel) points epsilon
  = let '(dmax, index) := farthest sqrt points in
    if Qgtb dmax epsilon
    then
      rec1 ← simplify sqrt fuel (take (index + 1) points) epsilon;
      rec2 ← simplify sqrt fuel (drop index points) epsilon;
      Ok (removelast rec1 ++ rec2)
    else
      match points with
      | [] => Raise IndexError
      | p0 :: _ => Ok [p0; List.last points p0]
      end.
Proof. reflexivity. Qed.

Lemma bind_Ok {A B : Type} (a : A) (k : A → result B) :
  (Ok a ≫= k) = k a.
Proof. reflexivity. Qed.

Lemma split_at_index (mid : list point) j :
  1 ≤ j ≤ length mid →
  ∃ l1 x l2, mid = l1 ++ x :: l2 ∧ j = 1 + length l1.
Proof.
  intros Hj. destruct (lookup_lt_is_Some_2 mid (j - 1)) as [x Hx]; [lia|].
  exists (take (j - 1) mid), x, (drop (S (j - 1)) mid). split.
  - by rewrite take_drop_middle.
  - rewrite length_take. lia.
Qed.

Lemma take_split (p0 : point) l1 x l2 pl :
  take (1 + length l1 + 1) (p0 :: (l1 ++ x :: l2) ++ [pl]) = p0 :: l1 ++ [x].
Proof.
  replace (p0 :: (l1 ++ x :: l2) ++ [pl])
    with ((p0 :: l1 ++ [x]) ++ (l2 ++ [pl]))
    by (simpl; by rewrite <- !app_assoc).
  apply take_app_length'. simpl. rewrite length_app. simpl. lia.
Qed.

Lemma drop_split (p0 : point) l1 x l2 pl :
  drop (1 + length l1) (p0 :: (l1 ++ x :: l2) ++ [pl]) = x :: l2 ++ [pl].
Proof.
  replace (p0 :: (l1 ++ x :: l2) ++ [pl])
    with ((p0 :: l1) ++ (x :: l2 ++ [pl]))
    by (simpl; by rewrite <- !app_assoc).
  by apply drop_app_length'.
Qed.

Lemma length_removelast (l : list point) :
  length (removelast l) = length l - 1.
Proof. rewrite removelast_firstn_len, length_take. lia. Qed.

Lemma removelast_snoc (p0 : point) l x :
  removelast (p0 :: l ++ [x]) = p0 :: l.
Proof. by rewrite app_comm_cons, removelast_last. Qed.

(** The function returns on every list of at least two points when given
    the length of the list as fuel: it keeps both end points and a
    sublist of the interior points, and returns its own result
    unchanged. *)
Lemma simplify_spec fuel p0 mid pl epsilon :
  (0 <= epsilon)%Q → length mid + 2 ≤ fuel →
  ∃ s, simplify sqrt fuel (p0 :: mid ++ [pl]) epsilon = Ok (p0 :: s ++ [pl])
       ∧ s `sublist_of` mid
       ∧ ∀ fuel2, length s + 2 ≤ fuel2 →
           simplify sqrt fuel2 (p0 :: s ++ [pl]) epsilon
           = Ok (p0 :: s ++ [pl]).
Proof.
  intros Heps. revert p0 mid pl.
  induction fuel as [|fuel IH]; intros p0 mid pl Hfuel; [lia|].
  rewrite simplify_S, farthest_scan.
  destruct (scan _ mid 1 (0%Q, 0)) as [M j] eqn:E.
  destruct (Qgtb M epsilon) eqn:HM.
  - destruct (split_at_index mid j) as (l1 & x & l2 & -> & ->);
      [by eapply scan_index|].
    rewrite length_app in Hfuel. simpl in Hfuel.
    rewrite take_split, drop_split.
    destruct (IH p0 l1 x) as (s1 & -> & Hs1 & Hi1); [lia|].
    destruct (IH x l2 pl) as (s2 & -> & Hs2 & Hi2); [lia|].
    exists (s1 ++ x :: s2). rewrite !bind_Ok, removelast_snoc. simpl.
    split; [by rewrite <- app_assoc|].
    split; [apply sublist_app; [done | by constructor]|].
    intros [|fuel2] Hfuel2; [lia|].
    rewrite length_app in Hfuel2. simpl in Hfuel2.
    rewrite simplify_S, farthest_scan.
    rewrite (scan_sublist _ _ _ _ _ _ _ E Hs1 Hs2), HM.
    rewrite take_split, drop_split.
    rewrite Hi1 by lia. rewrite Hi2 by lia.
    rewrite !bind_Ok, removelast_snoc. simpl. by rewrite <- app_assoc.
  - exists []. rewrite last_cons_app.
    split; [done|]. split; [apply sublist_nil_l|].
    intros [|fuel2] Hfuel2; [simpl in Hfuel2; lia|].
    rewrite simplify_S, (farthest_scan p0 [] pl). simpl.
    by replace (Qgtb 0 epsilon) with false
      by (symmetry; by apply Qgtb_false).
Qed.

Lemma two_points (points : list point) :
  2 ≤ length points → ∃ p0 mid pl, points = p0 :: mid ++ [pl].
Proof.
  destruct points as [|p0 rest]; simpl; [lia|]. intros H.
  destruct (exists_last (l:=rest)) as (mid & pl & ->).
  - destruct rest; simpl in *; [lia | done].
  - by exists p0, mid, pl.
Qed.

(** The result of [simplify], whatever the fuel and the tolerance, has
    at least two elements. *)
Lemma simplify_length fuel points epsilon out :
  simplify sqrt fuel points epsilon = Ok out → 2 ≤ length out.
Proof.
  revert points out. induction fuel as [|fuel IH]; intros points out;
    [done|].
  rewrite simplify_S. destruct (farthest sqrt points) as [M j].
  destruct (Qgtb M epsilon).
  - destruct (simplify sqrt fuel (take _ _) _) as [r1|]; [|done].
    destruct (simplify sqrt fuel (drop _ _) _) as [r2|] eqn:E2; [|done].
    simpl. intros [= <-]. apply IH in E2. rewrite length_app. lia.
  - destruct points; [done|]. by intros [= <-].
Qed.

(** A larger tolerance never gives a longer result. *)
Lemma simplify_length_mono fuel points epsilon1 epsilon2 out1 out2 :
  (epsilon1 <= epsilon2)%Q →
  simplify sqrt fuel points epsilon1 = Ok out1 →
  simplify sqrt fuel points epsilon2 = Ok out2 →
  length out2 ≤ length out1.
Proof.
  intros Hle. revert points out1 out2.
  induction fuel as [|fuel IH]; intros points out1 out2; [done|].
  rewrite !simplify_S. destruct (farthest sqrt points) as [M j].
  destruct (Qgtb M epsilon2) eqn:H2.
  - replace (Qgtb M epsilon1) with true.
    2:{ symmetry. apply Qgtb_true. apply Qgtb_true in H2.
        by eapply Qle_lt_trans. }
    destruct (simplify sqrt fuel (take _ _) epsilon1) as [r1|] eqn:E1;
      [|done].
    destruct (simplify sqrt fuel (drop _ _) epsilon1) as [r2|] eqn:E2;
      [|done].
    destruct (simplify sqrt fuel (take _ _) epsilon2) as [r1'|] eqn:E1';
      [|done].
    destruct (simplify sqrt fuel (drop _ _) epsilon2) as [r2'|] eqn:E2';
      [|done].
    simpl. intros [= <-] [= <-].
    pose proof (IH _ _ _ E1 E1'). pose proof (IH _ _ _ E2 E2').
    rewrite !length_app, !length_removelast. lia.
  - destruct (Qgtb M epsilon1).
    + destruct (simplify sqrt fuel (take _ _) epsilon1) as [r1|]; [|done].
      destruct (simplify sqrt fuel (drop _ _) epsilon1) as [r2|] eqn:E2;
        [|done].
      simpl. intros [= <-]. apply simplify_length in E2.
      destruct points; [done|]. intros [= <-].
      rewrite length_app. simpl. lia.
    + destruct points; [done|]. by intros [= <-] [= <-].
Qed.

(** *** The division in [perpendicular_distance] *)

(** With a square root that vanishes at zero only, the divisor [den] is
    never zero on the branch that divides: Python raises no
    [ZeroDivisionError] there. *)
Lemma perpendicular_distance_den_nonzero (line_start line_end : point) :
  (∀ x, sqrt x == 0 → x == 0)%Q →
  point_eqb line_start line_end = false →
  ¬ (sqrt ((line_end.2 - line_start.2) ^ 2
           + (line_end.1 - line_start.1) ^ 2) == 0)%Q.
Proof.
  intros Hsqrt Hne Hz. apply Hsqrt, Qsquares_zero in Hz as [Hy Hx].
  destruct line_start as [x1 y1], line_end as [x2 y2].
  unfold point_eqb in Hne. simpl in *.
  assert (x1 == x2)%Q as Hx' by lra.
  assert (y1 == y2)%Q as Hy' by lra.
  apply Qeq_bool_iff in Hx', Hy'. by rewrite Hx', Hy' in Hne.
Qed.

(** *** The simplifier *)

(** [douglas_peucker] keeps both ends of a list of at least two points and
    a sublist of what lies between them. *)
Lemma douglas_peucker_shape (p0 : point) mid (pl : point) (epsilon : Q) :
  (0 <= epsilon)%Q →
  ∃ s, douglas_peucker sqrt (p0 :: mid ++ [pl]) epsilon = Ok (p0 :: s ++ [pl])
       ∧ s `sublist_of` mid.
Proof.
  intros Heps.
  destruct (simplify_spec (S (length (p0 :: mid ++ [pl]))) p0 mid pl epsilon)
    as (s & Hs & Hsub & _); [done | simpl; rewrite length_app; simpl; lia |].
  by exists s.
Qed.

(** It returns on every list of at least two points when epsilon is not
    negative. *)
Lemma douglas_peucker_total (points : list point) (epsilon : Q) :
  2 ≤ length points → (0 <= epsilon)%Q →
  ∃ out, douglas_peucker sqrt points epsilon = Ok out.
Proof.
  intros Hlen Heps.
  destruct (two_points points Hlen) as (p0 & mid & pl & ->).
  destruct (douglas_peucker_shape p0 mid pl epsilon Heps) as (s & Hs & _).
  by eexists.
Qed.

(** C1: for every input of at least two points and every non-negative
    epsilon, [douglas_peucker] returns a list whose first element is the
    first input point and whose last element is the last input point. *)
Theorem douglas_peucker_endpoints (points : list point) (epsilon : Q) :
  2 ≤ length points → (0 <= epsilon)%Q →
  ∃ out, douglas_peucker sqrt points epsilon = Ok out
         ∧ head out = head points
         ∧ last out = last points.
Proof.
  intros Hlen Heps.
  destruct (two_points points Hlen) as (p0 & mid & pl & ->).
  destruct (douglas_peucker_shape p0 mid pl epsilon Heps) as (s & Hs & _).
  exists (p0 :: s ++ [pl]). split; [done|]. split; [done|].
  by rewrite !app_comm_cons, !last_snoc.
Qed.

(** C7: for every input of at least two points and every non-negative
    epsilon, [douglas_peucker] applied with the same epsilon to its own
    result returns that result. *)
Theorem douglas_peucker_idempotent (points : list point) (epsilon : Q) :
  2 ≤ length points → (0 <= epsilon)%Q →
  ∃ out, douglas_peucker sqrt points epsilon = Ok out
         ∧ douglas_peucker sqrt out epsilon = Ok out.
Proof.
  intros Hlen Heps.
  destruct (two_points points Hlen) as (p0 & mid & pl & ->).
  destruct (simplify_spec (S (length (p0 :: mid ++ [pl]))) p0 mid pl epsilon)
    as (s & Hs & _ & Hidem); [done | simpl; rewrite length_app; simpl; lia |].
  exists (p0 :: s ++ [pl]). split; [done|].
  apply Hidem. simpl. rewrite length_app. simpl. lia.
Qed.

(** C8: for a fixed input of at least two points and
    [0 <= epsilon1 <= epsilon2], the result for [epsilon2] is at most as
    long as the result for [epsilon1]. *)
Theorem douglas_peucker_length_antitone (points : list point)
  (epsilon1 epsilon2 : Q) :
  2 ≤ length points → (0 <= epsilon1)%Q → (epsilon1 <= epsilon2)%Q →
  ∃ out1 out2, douglas_peucker sqrt points epsilon1 = Ok out1
               ∧ douglas_peucker sqrt points epsilon2 = Ok out2
               ∧ length out2 ≤ length out1.
Proof.
  intros Hlen Heps1 Hle.
  destruct (douglas_peucker_total points epsilon1) as [out1 H1]; [done..|].
  destruct (douglas_peucker_total points epsilon2) as [out2 H2];
    [done | by eapply Qle_trans |].
  exists out1, out2. split; [done|]. split; [done|].
  by eapply simplify_length_mono.
Qed.

End SimplifierFacts.

(** ** Selection of the surviving points *)

Lemma point_eqb_refl (c : point) : point_eqb c c = true.
Proof.
  unfold point_eqb. apply andb_true_intro.
  split; by apply Qeq_bool_iff.
Qed.

Lemma py_in_elem_of (c : point) (l : list point) : c ∈ l → py_in c l = true.
Proof.
  intros Hc. apply existsb_exists. exists c.
  split; [by apply list_elem_of_In | apply point_eqb_refl].
Qed.

Section CreateDataFacts.

Variable sqrt : Q → Q.
Variable geodesic_km : point → point → Q.
Variable geodesic_miles : point → point → Q.
Variable centroid : list point → result point.

(** On a single point the loop of the simplifier does not run, and the
    point is returned twice. *)
Lemma douglas_peucker_single (p : point) (epsilon : Q) :
  (0 <= epsilon)%Q → douglas_peucker sqrt [p] epsilon = Ok [p; p].
Proof.
  intros Heps. unfold douglas_peucker.
  rewrite simplify_S. unfold farthest. simpl.
  by replace (Qgtb 0 epsilon) with false by (symmetry; by apply Qgtb_false).
Qed.

Lemma epsilon_nonneg : (0 <= 1 # 10000)%Q.
Proof. unfold Qle. simpl. lia. Qed.

(** On a track without points [points[0]] raises. *)
Lemma simplified_coords_nil : simplified_coords sqrt [] = Raise IndexError.
Proof. reflexivity. Qed.

(** On any other track the simplifier returns, and its result holds the
    coordinates of the first and of the last raw point. *)
Lemma simplified_coords_total (raw : list RawPoint) :
  raw ≠ [] →
  ∃ simplified, simplified_coords sqrt raw = Ok simplified
                ∧ head simplified = coords <$> head raw
                ∧ last simplified = coords <$> last raw.
Proof.
  intros Hraw. unfold simplified_coords.
  destruct raw as [|p [|q raw]]; [done | |].
  - eexists. split; [apply douglas_peucker_single, epsilon_nonneg|done].
  - destruct (exists_last (l:=q :: raw)) as (rmid & rl & ->); [done|].
    change (map coords (p :: rmid ++ [rl]))
      with (coords p :: map coords (rmid ++ [rl])).
    rewrite map_app. simpl map.
    destruct (douglas_peucker_shape sqrt (coords p) (map coords rmid)
                (coords rl) (1 # 10000)%Q epsilon_nonneg) as (s & -> & _).
    eexists. split; [done|]. split; [done|].
    by rewrite !app_comm_cons, !last_snoc.
Qed.

Lemma select_points_sublist (raw : list RawPoint) (simplified : list point) :
  select_points raw simplified `sublist_of` raw.
Proof.
  unfold select_points. induction raw as [|p raw IH]; simpl; [done|].
  destruct (py_in (coords p) simplified); by constructor.
Qed.

Lemma select_points_elem_of (raw : list RawPoint) simplified p :
  p ∈ select_points raw simplified
  ↔ p ∈ raw ∧ py_in (coords p) simplified = true.
Proof.
  unfold select_points. by rewrite !list_elem_of_In, filter_In.
Qed.

(** The first and the last raw point always survive. *)
Lemma select_points_ends (r0 : RawPoint) rmid rl simplified :
  head simplified = Some (coords r0) →
  last simplified = Some (coords rl) →
  ∃ s, select_points (r0 :: rmid ++ [rl]) simplified = r0 :: s ++ [rl].
Proof.
  intros Hhd Hlast. unfold select_points. simpl.
  rewrite (py_in_elem_of (coords r0)).
  2:{ destruct simplified; simplify_eq/=. apply list_elem_of_here. }
  rewrite List.filter_app. simpl.
  rewrite (py_in_elem_of (coords rl)); [by eexists|].
  apply last_Some in Hlast as [l' ->].
  apply elem_of_app. right. apply list_elem_of_here.
Qed.

(** C10: on every track with a point the simplifier returns, and the
    surviving points are the raw points whose coordinate pair occurs in
    the simplified list, in their original order; some track has more
    surviving points than the simplified list has elements. *)
Theorem track_points_by_coordinates :
  (∀ raw : list RawPoint, raw ≠ [] →
     ∃ simplified points,
       simplified_coords sqrt raw = Ok simplified
       ∧ track_points sqrt raw = Ok points
       ∧ points = List.filter (fun p => py_in (coords p) simplified) raw
       ∧ points `sublist_of` raw
       ∧ ∀ p, p ∈ points
              ↔ p ∈ raw ∧ ∃ c, c ∈ simplified
                               ∧ point_eqb (coords p) c = true)
  ∧ (∃ raw simplified points,
       simplified_coords sqrt raw = Ok simplified
       ∧ track_points sqrt raw = Ok points
       ∧ length simplified < length points).
Proof.
  split.
  - intros raw Hraw.
    destruct (simplified_coords_total raw Hraw) as (simplified & Hs & _).
    exists simplified, (select_points raw simplified).
    split; [done|]. split; [unfold track_points; by rewrite Hs|].
    split; [done|]. split; [apply select_points_sublist|].
    intros p. rewrite select_points_elem_of. unfold py_in.
    rewrite existsb_exists. by setoid_rewrite list_elem_of_In.
  - exists standing_track,
      [((505 # 10)%Q, (-39 # 10)%Q); ((506 # 10)%Q, (-39 # 10)%Q)],
      standing_track.
    split; [by vm_compute|]. split; [by vm_compute|]. simpl. lia.
Qed.

(** *** Tracks with fewer than two surviving points *)

Lemma track_points_one (p : RawPoint) : track_points sqrt [p] = Ok [p].
Proof.
  unfold track_points, simplified_coords. simpl map.
  rewrite douglas_peucker_single by apply epsilon_nonneg.
  rewrite bind_Ok. unfold select_points, py_in. simpl.
  by rewrite point_eqb_refl.
Qed.

(** Fewer than two points survive on a track of one point only. *)
Lemma track_points_short (raw points : list RawPoint) :
  track_points sqrt raw = Ok points → length points < 2 →
  ∃ p, raw = [p] ∧ points = [p].
Proof.
  intros Hpoints Hlen. destruct raw as [|p [|q raw]].
  - done.
  - rewrite track_points_one in Hpoints. exists p. by simplify_eq.
  - exfalso.
    destruct (exists_last (l:=q :: raw)) as (rmid & rl & Heq); [done|].
    rewrite Heq in Hpoints.
    destruct (simplified_coords_total (p :: rmid ++ [rl]))
      as (simplified & Hs & Hhd & Hlast); [done|].
    unfold track_points in Hpoints. rewrite Hs, bind_Ok in Hpoints.
    destruct (select_points_ends p rmid rl simplified) as [s Hsel].
    + done.
    + rewrite Hlast. by rewrite app_comm_cons, last_snoc.
    + rewrite Hsel in Hpoints. simplify_eq. simpl in Hlen.
      rewrite length_app in Hlen. simpl in Hlen. lia.
Qed.

(** A track without points stops the run in the simplifier. *)
Lemma empty_track_aborts_run (t : Track) (rest : list Track)
  (features : list Feature) :
  raw_points t = [] →
  process_files sqrt geodesic_km geodesic_miles centroid (t :: rest) features
  = Raise IndexError.
Proof. intros Hraw. simpl. unfold process_track. by rewrite Hraw. Qed.

Lemma process_track_one_point (t : Track) (p : RawPoint) :
  raw_points t = [p] →
  process_track sqrt geodesic_km geodesic_miles centroid t
  = (c ← centroid [coords p]; Ok (one_point_feature t p c)).
Proof.
  intros Hraw. unfold process_track.
  rewrite Hraw, track_points_one, bind_Ok.
  unfold track_duration, datetime_sub. simpl.
  rewrite Z.sub_diag. reflexivity.
Qed.

(** C3, amended: fewer than two surviving points occur on a track of
    one point only, and such a track is not skipped: either the geometry
    library rejects its line, and the exception leaves the loop without
    the remaining files being processed, or a feature with zero distance,
    ascent and descent is appended and the loop goes on. *)
Theorem short_track_not_skipped (t : Track) (rest : list Track)
  (features : list Feature) (points : list RawPoint) :
  track_points sqrt (raw_points t) = Ok points → length points < 2 →
  raw_points t = points ∧ length points = 1
  ∧ ((∃ e, centroid (map coords points) = Raise e
           ∧ process_files sqrt geodesic_km geodesic_miles centroid
               (t :: rest) features = Raise e)
     ∨ (∃ f, process_track sqrt geodesic_km geodesic_miles centroid t = Ok f
             ∧ distance_km f = 0%Q ∧ distance_mi f = 0%Q
             ∧ ascent f = 0%Z ∧ descent f = 0%Z
             ∧ process_files sqrt geodesic_km geodesic_miles centroid
                 (t :: rest) features
               = process_files sqrt geodesic_km geodesic_miles centroid
                   rest (features ++ [f]))).
Proof.
  intros Hpoints Hlen.
  destruct (track_points_short _ _ Hpoints Hlen) as (p & Hraw & ->).
  split; [done|]. split; [done|]. simpl.
  pose proof (process_track_one_point t p Hraw) as Ht.
  destruct (centroid [coords p]) as [c|e] eqn:Hc.
  - right. exists (one_point_feature t p c).
    split; [done|]. do 4 (split; [done|]). by rewrite Ht.
  - left. exists e. split; [done|]. by rewrite Ht.
Qed.

End CreateDataFacts.

(** ** Indexing *)

Lemma py_index_nth {A : Type} (l : list A) (z : Z) (k : nat) (d : A) :
  z = Z.of_nat k → k < length l → py_index l z = Ok (nth k l d).
Proof.
  intros -> Hk. unfold py_index.
  replace (Z.of_nat k <? 0)%Z with false by (symmetry; apply Z.ltb_ge; lia).
  replace (0 <=? Z.of_nat k)%Z with true by (symmetry; apply Z.leb_le; lia).
  replace (Z.of_nat k <? Z.of_nat (length l))%Z with true
    by (symmetry; apply Z.ltb_lt; lia).
  simpl. rewrite Nat2Z.id.
  destruct (lookup_lt_is_Some_2 l k Hk) as [x Hx].
  by rewrite Hx, (nth_lookup_Some _ _ _ _ Hx).
Qed.

Lemma py_index_last {A : Type} (l : list A) (x : A) :
  last l = Some x → py_index l (-1)%Z = Ok x.
Proof.
  intros Hlast. apply last_Some in Hlast as [l' ->].
  unfold py_index. rewrite length_app. simpl length.
  replace (-1 <? 0)%Z with true by done.
  replace (0 <=? -1 + Z.of_nat (length l' + 1))%Z with true
    by (symmetry; apply Z.leb_le; lia).
  replace (-1 + Z.of_nat (length l' + 1) <? Z.of_nat (length l' + 1))%Z
    with true by (symmetry; apply Z.ltb_lt; lia).
  simpl.
  replace (Z.to_nat (-1 + Z.of_nat (length l' + 1))) with (length l') by lia.
  by rewrite list_lookup_middle.
Qed.

Lemma mapM_Ok {A B : Type} (f : A → result B) (g : A → B) (l : list A) :
  (∀ x, x ∈ l → f x = Ok (g x)) → mapM f l = Ok (map g l).
Proof.
  induction l as [|x l IH]; intros H; [done|]. simpl.
  rewrite (H x) by apply list_elem_of_here. simpl.
  rewrite IH; [done|]. intros y Hy. apply H. by apply list_elem_of_further.
Qed.

(** ** The smoothed elevations *)

Section Smoothing.

Variable track_points : list RawPoint.

Let ele : list Q := map elevation track_points.
Let n : nat := length track_points.

Lemma ele_at (z : Z) (k : nat) :
  z = Z.of_nat k → k < n →
  (p ← py_index track_points z; Ok (elevation p)) = Ok (nth k ele 0%Q).
Proof.
  intros Hz Hk.
  rewrite (py_index_nth _ z k (mk_RawPoint 0 0 0 0) Hz Hk), bind_Ok.
  f_equal. symmetry.
  exact (map_nth elevation track_points (mk_RawPoint 0 0 0 0) k).
Qed.

(** No index of the loop is out of range, and the four branches are
    taken as follows. *)
Lemma sevenpoint_at_cases (i : nat) :
  i < n →
  ∃ q, sevenpoint_at track_points (Z.of_nat n - 1) (Z.of_nat i) = Ok q
    ∧ (((i = 0 ∨ i = n - 1)
        ∧ half_width (Z.of_nat n - 1) (Z.of_nat i) = 0
        ∧ q = nth i ele 0%Q)
       ∨ ((i ≠ 0 ∧ i ≠ n - 1 ∧ (i = 1 ∨ i + 2 = n))
          ∧ half_width (Z.of_nat n - 1) (Z.of_nat i) = 1
          ∧ q = ((nth i ele 0 + nth (i - 1) ele 0 + nth (i + 1) ele 0)
                 / 3)%Q)
       ∨ ((2 ≤ i ∧ i + 3 ≤ n ∧ (i = 2 ∨ i + 3 = n))
          ∧ half_width (Z.of_nat n - 1) (Z.of_nat i) = 2
          ∧ q = ((nth i ele 0 + nth (i - 1) ele 0 + nth (i - 2) ele 0
                  + nth (i + 1) ele 0 + nth (i + 2) ele 0) / 5)%Q)
       ∨ ((3 ≤ i ∧ i + 4 ≤ n)
          ∧ half_width (Z.of_nat n - 1) (Z.of_nat i) = 3
          ∧ q = ((nth i ele 0 + nth (i - 1) ele 0 + nth (i - 2) ele 0
                  + nth (i - 3) ele 0 + nth (i + 1) ele 0
                  + nth (i + 2) ele 0 + nth (i + 3) ele 0) / 7)%Q)).
Proof.
  intros Hi. unfold sevenpoint_at, half_width. cbv beta zeta.
  destruct (Z.eqb_spec (Z.of_nat i) 0);
    destruct (Z.eqb_spec (Z.of_nat i) (Z.of_nat n - 1)); simpl orb; cbv iota.
  1-3: rewrite (ele_at (Z.of_nat i) i) by lia; eexists; split; [done|];
       left; split; [lia | done].
  destruct (Z.eqb_spec (Z.of_nat i) 1);
    destruct (Z.eqb_spec (Z.of_nat i) (Z.of_nat n - 1 - 1)); simpl orb;
    cbv iota.
  1-3: rewrite (ele_at (Z.of_nat i) i), (ele_at (Z.of_nat i - 1) (i - 1)),
         (ele_at (Z.of_nat i + 1) (i + 1)) by lia;
       rewrite !bind_Ok; eexists; split; [done|];
       right; left; split; [lia | done].
  destruct (Z.eqb_spec (Z.of_nat i) 2);
    destruct (Z.eqb_spec (Z.of_nat i) (Z.of_nat n - 1 - 2)); simpl orb;
    cbv iota.
  1-3: rewrite (ele_at (Z.of_nat i) i), (ele_at (Z.of_nat i - 1) (i - 1)),
         (ele_at (Z.of_nat i - 2) (i - 2)), (ele_at (Z.of_nat i + 1) (i + 1)),
         (ele_at (Z.of_nat i + 2) (i + 2)) by lia;
       rewrite !bind_Ok; eexists; split; [done|];
       right; right; left; split; [lia | done].
  rewrite (ele_at (Z.of_nat i) i), (ele_at (Z.of_nat i - 1) (i - 1)),
    (ele_at (Z.of_nat i - 2) (i - 2)), (ele_at (Z.of_nat i - 3) (i - 3)),
    (ele_at (Z.of_nat i + 1) (i + 1)), (ele_at (Z.of_nat i + 2) (i + 2)),
    (ele_at (Z.of_nat i + 3) (i + 3)) by lia.
  rewrite !bind_Ok. eexists. split; [done|].
  right; right; right. split; [lia | done].
Qed.

End Smoothing.

Lemma sevenpoint_values (track_points : list RawPoint) :
  sevenpoint track_points
  = Ok (map (smooth_value track_points) (seq 0 (length track_points))).
Proof.
  unfold sevenpoint. apply mapM_Ok. intros i Hi.
  apply elem_of_seq in Hi as [_ Hi].
  destruct (sevenpoint_at_cases track_points i) as (q & Hq & _); [lia|].
  unfold smooth_value. by rewrite Hq.
Qed.

Lemma nth_smooth_value (track_points : list RawPoint) (i : nat) :
  i < length track_points →
  nth i (map (smooth_value track_points) (seq 0 (length track_points))) 0%Q
  = smooth_value track_points i.
Proof.
  intros Hi. apply nth_lookup_Some.
  by rewrite list_lookup_fmap, lookup_seq_lt.
Qed.

Lemma take_drop_nth (l : list Q) (j m : nat) :
  j + m ≤ length l →
  take m (drop j l) = map (fun t => nth t l 0%Q) (seq j m).
Proof.
  revert j. induction m as [|m IH]; intros j Hj; [done|].
  destruct (lookup_lt_is_Some_2 l j) as [x Hx]; [lia|].
  rewrite (drop_S _ _ _ Hx). simpl.
  rewrite (nth_lookup_Some _ _ _ _ Hx). f_equal.
  apply IH. lia.
Qed.

(** The two ends of the series are not averaged. *)
Lemma smooth_value_end (track_points : list RawPoint) (i : nat) :
  i < length track_points → i = 0 ∨ i = length track_points - 1 →
  smooth_value track_points i = nth i (map elevation track_points) 0%Q.
Proof.
  intros Hi Hend. unfold smooth_value.
  destruct (sevenpoint_at_cases track_points i Hi) as (q & -> & Hq).
  destruct Hq as [(_ & _ & ->)|[(Hc & _)|[(Hc & _)|(Hc & _)]]];
    [done | lia..].
Qed.

(** C2: [sevenpoint] returns, without an index error, one value per point;
    the value at index [i] is the mean of the window that the rule gives
    for [i]: width 1 at index 0 and [max_index], where it is the raw
    elevation itself, 3 at 1 and [max_index-1], 5 at 2 and [max_index-2], 7
    anywhere else; on nine points, the value at index 4 is the mean of the
    elevations at indices 1 to 7. *)
Theorem sevenpoint_window_rule :
  (∀ track_points : list RawPoint,
     ∃ smoothed, sevenpoint track_points = Ok smoothed
       ∧ length smoothed = length track_points
       ∧ ∀ i, i < length track_points →
           (nth i smoothed 0 == smoothed_spec (map elevation track_points) i)%Q
           ∧ (i = 0 ∨ i = length track_points - 1 →
              nth i smoothed 0%Q = nth i (map elevation track_points) 0%Q))
  ∧ (∀ e0 e1 e2 e3 e4 e5 e6 e7 e8 : Q,
       (smoothed_spec [e0; e1; e2; e3; e4; e5; e6; e7; e8] 4
        == (e1 + e2 + e3 + e4 + e5 + e6 + e7) / 7)%Q).
Proof.
  split.
  - intros tp. eexists. split; [apply sevenpoint_values|].
    split; [by rewrite length_map, length_seq|].
    intros i Hi. rewrite nth_smooth_value by done.
    split; [|by apply smooth_value_end].
    unfold smoothed_spec, window_mean. rewrite length_map.
    destruct (sevenpoint_at_cases tp i Hi) as (q & Hq & Hcases).
    unfold smooth_value. rewrite Hq.
    destruct Hcases
      as [(Hc & -> & ->)|[(Hc & -> & ->)|[(Hc & -> & ->)|(Hc & -> & ->)]]];
      rewrite take_drop_nth by (rewrite length_map; lia);
      cbn [seq map Qsum foldr Nat.mul Nat.add].
    + replace (i - 0) with i by lia. change (inject_Z (Z.of_nat 1)) with 1%Q.
      field.
    + replace (S (S (i - 1))) with (i + 1) by lia.
      replace (S (i - 1)) with i by lia.
      change (inject_Z (Z.of_nat 3)) with 3%Q. field.
    + replace (S (S (S (S (i - 2))))) with (i + 2) by lia.
      replace (S (S (S (i - 2)))) with (i + 1) by lia.
      replace (S (S (i - 2))) with i by lia.
      replace (S (i - 2)) with (i - 1) by lia.
      change (inject_Z (Z.of_nat 5)) with 5%Q. field.
    + replace (S (S (S (S (S (S (i - 3))))))) with (i + 3) by lia.
      replace (S (S (S (S (S (i - 3)))))) with (i + 2) by lia.
      replace (S (S (S (S (i - 3))))) with (i + 1) by lia.
      replace (S (S (S (i - 3)))) with i by lia.
      replace (S (S (i - 3))) with (i - 1) by lia.
      replace (S (i - 3)) with (i - 2) by lia.
      change (inject_Z (Z.of_nat 7)) with 7%Q. field.
  - intros. unfold smoothed_spec, window_mean. simpl. field.
Qed.

(** ** Ascent and descent *)

Lemma Qdiv_3 (x : Q) : (x / 3 == x * (1 # 3))%Q.
Proof. field. Qed.

Lemma Qdiv_5 (x : Q) : (x / 5 == x * (1 # 5))%Q.
Proof. field. Qed.

Lemma Qdiv_7 (x : Q) : (x / 7 == x * (1 # 7))%Q.
Proof. field. Qed.

(** On a series that never decreases, the loop adds every change to the
    ascent, which telescopes, and never touches the descent. *)
Lemma ascent_descent_loop (s : list Q) (m i : nat) (st : Q * Q) :
  (∀ k, k + 1 < length s → (nth k s 0 <= nth (k + 1) s 0)%Q) →
  1 ≤ i → i + m ≤ length s →
  let st' := foldl (ascent_descent_step s) st (seq i m) in
  (st'.1 == st.1 + (nth (i + m - 1) s 0 - nth (i - 1) s 0))%Q ∧ st'.2 = st.2.
Proof.
  intros Hmono. revert i st. induction m as [|m IH]; intros i st Hi Him; simpl.
  - split; [|done]. replace (i + 0 - 1) with (i - 1) by lia. ring.
  - destruct (IH (S i) (ascent_descent_step s st i)) as [H1 H2]; [lia..|].
    replace (S i + m - 1) with (i + S m - 1) in H1 by lia.
    replace (S i - 1) with i in H1 by lia.
    rewrite H1, H2. clear H1 H2 IH.
    unfold ascent_descent_step. rewrite bool_decide_true by lia.
    pose proof (Hmono (i - 1) ltac:(lia)) as Hle.
    replace (i - 1 + 1) with i in Hle by lia.
    destruct (Qgtb (nth i s 0 - nth (i - 1) s 0)%Q 0%Q) eqn:Hup; simpl.
    + split; [ring | done].
    + apply Qgtb_false in Hup.
      replace (Qgtb 0%Q (nth i s 0 - nth (i - 1) s 0)%Q) with false
        by (symmetry; apply Qgtb_false; lra).
      split; [lra | done].
Qed.

Lemma ascent_descent_monotone (s : list Q) :
  (∀ k, k + 1 < length s → (nth k s 0 <= nth (k + 1) s 0)%Q) →
  ((ascent_descent s).1 == nth (length s - 1) s 0 - nth 0 s 0)%Q
  ∧ (ascent_descent s).2 = 0%Q.
Proof.
  intros Hmono. unfold ascent_descent.
  destruct s as [|x s]; [split; [simpl; ring | done]|].
  change (seq 0 (length (x :: s))) with (0 :: seq 1 (length s)).
  change (foldl ?f ?a (0 :: ?l)) with (foldl f a l).
  destruct (ascent_descent_loop (x :: s) (length s) 1 (0%Q, 0%Q))
    as [H1 H2]; [done | lia | simpl; lia |].
  split; [|done]. rewrite H1.
  replace (1 + length s - 1) with (length (x :: s) - 1) by (simpl; lia).
  change (1 - 1) with 0. simpl fst. ring.
Qed.

Section Monotone.

Variable track_points : list RawPoint.

Let ele : list Q := map elevation track_points.
Let n : nat := length track_points.

Hypothesis Hmono : ∀ k, k + 1 < n → (nth k ele 0 <= nth (k + 1) ele 0)%Q.

Lemma ele_le (a b : nat) : a ≤ b → b < n → (nth a ele 0 <= nth b ele 0)%Q.
Proof.
  intros Hab Hb. induction Hab as [|b Hab IH]; [apply Qle_refl|].
  eapply Qle_trans; [apply IH; lia|].
  replace (S b) with (b + 1) by lia. apply Hmono. lia.
Qed.

(** Every window mean is at most the next one. *)
Lemma smooth_value_le (i : nat) :
  i + 1 < n →
  (smooth_value track_points i <= smooth_value track_points (i + 1))%Q.
Proof.
  intros Hi. unfold smooth_value.
  destruct (sevenpoint_at_cases track_points i) as (q & -> & Hq); [lia|].
  destruct (sevenpoint_at_cases track_points (i + 1)) as (q' & -> & Hq');
    [lia|].
  fold ele in Hq, Hq'. fold n in Hq, Hq'.
  assert (∀ a b, a ≤ b ∧ b < n → (nth a ele 0 <= nth b ele 0)%Q) as Hle
    by (intros a b [? ?]; by apply ele_le).
  destruct Hq as [(Hc & _ & ->)|[(Hc & _ & ->)|[(Hc & _ & ->)|(Hc & _ & ->)]]];
    destruct Hq' as [(Hc' & _ & ->)|[(Hc' & _ & ->)|[(Hc' & _ & ->)|(Hc' & _ & ->)]]];
    try (exfalso; lia);
    repeat first
      [ progress replace (i + 1 - 1) with i by lia
      | progress replace (i + 1 - 2) with (i - 1) by lia
      | progress replace (i + 1 - 3) with (i - 2) by lia
      | progress replace (i + 1 + 1) with (i + 2) by lia
      | progress replace (i + 1 + 2) with (i + 3) by lia
      | progress replace (i + 1 + 3) with (i + 4) by lia ];
    try pose proof (Hle (i - 3) (i - 2) ltac:(lia));
    try pose proof (Hle (i - 2) (i - 1) ltac:(lia));
    try pose proof (Hle (i - 1) i ltac:(lia));
    try pose proof (Hle i (i + 1) ltac:(lia));
    try pose proof (Hle (i + 1) (i + 2) ltac:(lia));
    try pose proof (Hle (i + 2) (i + 3) ltac:(lia));
    try pose proof (Hle (i + 3) (i + 4) ltac:(lia));
    rewrite ?Qdiv_3, ?Qdiv_5, ?Qdiv_7; lra.
Qed.

End Monotone.

Lemma nth_elevation (track_points : list RawPoint) (k : nat) (p : RawPoint) :
  track_points !! k = Some p → nth k (map elevation track_points) 0%Q = elevation p.
Proof.
  intros Hk. apply nth_lookup_Some.
  change (map elevation track_points) with (elevation <$> track_points).
  by rewrite list_lookup_fmap, Hk.
Qed.

(** The totals of a series of raw elevations that never decreases. *)
Lemma ascent_descent_nondecreasing (track_points : list RawPoint) :
  let ele := map elevation track_points in
  let n := length track_points in
  (∀ k, k + 1 < n → (nth k ele 0 <= nth (k + 1) ele 0)%Q) →
  ∃ smoothed, sevenpoint track_points = Ok smoothed
    ∧ ((ascent_descent smoothed).1 == nth (n - 1) ele 0 - nth 0 ele 0)%Q
    ∧ (ascent_descent smoothed).2 = 0%Q.
Proof.
  intros ele n Hmono. eexists. split; [apply sevenpoint_values|].
  set (s := map (smooth_value track_points) (seq 0 (length track_points))).
  assert (length s = n) as Hlen by (subst s; by rewrite length_map, length_seq).
  destruct (ascent_descent_monotone s) as [H1 H2].
  - intros k Hk. subst s. rewrite !nth_smooth_value by lia.
    apply smooth_value_le; [done | lia].
  - split; [|done]. rewrite H1, Hlen. subst s n.
    destruct track_points as [|p tp]; [simpl; ring|].
    rewrite !nth_smooth_value by (simpl; lia).
    rewrite !smooth_value_end by (simpl; lia). reflexivity.
Qed.

Lemma py_int_nonneg (x : Q) : (0 <= x)%Q → (0 <= py_int x)%Z.
Proof.
  intros Hx. unfold py_int. apply Z.quot_pos; [|done].
  unfold Qle in Hx. simpl in Hx. lia.
Qed.

Lemma py_int_nonpos (x : Q) : (x <= 0)%Q → (py_int x <= 0)%Z.
Proof.
  intros Hx. unfold py_int.
  rewrite <- (Z.quot_0_l (Z.pos (Qden x))) by done.
  apply Z.quot_le_mono; [done|]. unfold Qle in Hx. simpl in Hx. lia.
Qed.

Lemma py_int_zero (x : Q) : (x == 0)%Q → py_int x = 0%Z.
Proof.
  intros Hx. unfold py_int. unfold Qeq in Hx. simpl in Hx.
  replace (Qnum x) with 0%Z by lia. by apply Z.quot_0_l.
Qed.

(** C9, amended: on at least seven points whose raw elevations strictly
    increase, the accumulated ascent is positive and the reported descent,
    [int(total_descent_m)], is 0, the reported ascent, [int(total_ascent_m)],
    being not negative; on a constant series of raw elevations the reported
    ascent and the reported descent are both 0. *)
Theorem ascent_descent_of_series (track_points : list RawPoint) :
  (7 ≤ length track_points →
   (∀ i p q, track_points !! i = Some p → track_points !! (i + 1) = Some q →
             (elevation p < elevation q)%Q) →
   ∃ smoothed, sevenpoint track_points = Ok smoothed
     ∧ (0 < (ascent_descent smoothed).1)%Q
     ∧ py_int (ascent_descent smoothed).2 = 0%Z
     ∧ (0 <= py_int (ascent_descent smoothed).1)%Z)
  ∧ ((∃ c, ∀ p, p ∈ track_points → (elevation p == c)%Q) →
     ∃ smoothed, sevenpoint track_points = Ok smoothed
       ∧ py_int (ascent_descent smoothed).1 = 0%Z
       ∧ py_int (ascent_descent smoothed).2 = 0%Z).
Proof.
  split.
  - intros Hlen Hstrict.
    assert (∀ k, k + 1 < length track_points →
              (nth k (map elevation track_points) 0
               < nth (k + 1) (map elevation track_points) 0)%Q) as Hlt.
    { intros k Hk.
      destruct (lookup_lt_is_Some_2 track_points k) as [p Hp]; [lia|].
      destruct (lookup_lt_is_Some_2 track_points (k + 1)) as [q Hq]; [lia|].
      rewrite (nth_elevation _ _ _ Hp), (nth_elevation _ _ _ Hq). eauto. }
    destruct (ascent_descent_nondecreasing track_points)
      as (smoothed & Hs & H1 & H2).
    { intros k Hk. by apply Qlt_le_weak, Hlt. }
    exists smoothed. split; [done|].
    assert (0 < (ascent_descent smoothed).1)%Q as Hpos.
    { rewrite H1.
      assert (∀ b, b + 1 < length track_points →
                (nth 0 (map elevation track_points) 0
                 < nth (b + 1) (map elevation track_points) 0)%Q) as Hchain.
      { induction b as [|b IH]; intros Hb; [by apply Hlt|].
        eapply Qlt_trans; [apply IH; lia|].
        replace (S b) with (b + 1) by lia. apply Hlt. lia. }
      specialize (Hchain (length track_points - 2) ltac:(lia)).
      replace (length track_points - 2 + 1) with (length track_points - 1)
        in Hchain by lia.
      lra. }
    split; [done|]. split; [by rewrite H2|].
    by apply py_int_nonneg, Qlt_le_weak.
  - intros [c Hc].
    assert (∀ k, k < length track_points →
              (nth k (map elevation track_points) 0 == c)%Q) as Hk.
    { intros k Hk.
      destruct (lookup_lt_is_Some_2 track_points k Hk) as [p Hp].
      rewrite (nth_elevation _ _ _ Hp). apply Hc.
      by eapply list_elem_of_lookup_2. }
    destruct (ascent_descent_nondecreasing track_points)
      as (smoothed & Hs & H1 & H2).
    { intros k Hlt. rewrite !Hk by lia. apply Qle_refl. }
    exists smoothed. split; [done|]. split; [|by rewrite H2].
    apply py_int_zero. rewrite H1.
    destruct track_points as [|p tp]; [simpl; ring|].
    rewrite !Hk by (simpl; lia). ring.
Qed.

(** ** Duration *)

Lemma total_microseconds_of (us : Z) :
  total_microseconds (timedelta_of_microseconds us) = us.
Proof.
  unfold total_microseconds, timedelta_of_microseconds. simpl.
  pose proof (Z.div_mod us 86400000000 ltac:(done)).
  pose proof (Z.div_mod (us mod 86400000000) 1000000 ltac:(done)).
  assert ((us mod 86400000000) mod 1000000 = us mod 1000000)%Z.
  { apply Z.mod_mod_divide. by exists 86400%Z. }
  lia.
Qed.

Lemma py_index_head {A : Type} (l : list A) (x : A) :
  head l = Some x → py_index l 0%Z = Ok x.
Proof. destruct l; [done|]. by intros [= ->]. Qed.

(** What the code computes: the seconds component of the difference, the
    days being dropped with the microseconds. *)
Lemma track_duration_value (track_points : list RawPoint) (first final : RawPoint) :
  head track_points = Some first → last track_points = Some final →
  track_duration track_points
  = Ok (timedelta_seconds
          (((time final - time first) mod 86400000000) / 1000000)).
Proof.
  intros Hhd Hlast. unfold track_duration.
  by rewrite (py_index_head _ _ Hhd), (py_index_last _ _ Hlast).
Qed.

(** Within one day the code agrees with the floor of the difference. *)
Lemma track_duration_within_day (track_points : list RawPoint)
  (first final : RawPoint) :
  head track_points = Some first → last track_points = Some final →
  (0 <= time final - time first < 86400000000)%Z →
  track_duration track_points = Ok (floor_seconds (time final - time first)).
Proof.
  intros Hhd Hlast Hday. rewrite (track_duration_value _ _ _ Hhd Hlast).
  unfold floor_seconds, timedelta_seconds.
  by rewrite Z.mod_small.
Qed.

(** C6 at a track whose last point is 25 hours after its first: the code
    reports one hour, the floor of the exact difference is one day and one
    hour. *)
Theorem track_duration_drops_days :
  track_duration overnight_track = Ok (mk_timedelta 0 3600 0)
  ∧ floor_seconds (90000000000 - 0) = mk_timedelta 1 3600 0.
Proof. split; reflexivity. Qed.

(** ** Colours *)

Lemma colours_length : length colours = 11.
Proof. reflexivity. Qed.

Lemma colours_NoDup : List.NoDup colours.
Proof.
  unfold colours.
  repeat (apply List.NoDup_cons;
          [simpl; intros H; repeat destruct H as [H|H];
           (discriminate || contradiction)|]).
  apply List.NoDup_nil.
Qed.

Lemma palette_inj (k1 k2 : nat) :
  k1 < 11 → k2 < 11 → palette k1 = palette k2 → k1 = k2.
Proof.
  intros H1 H2. unfold palette. rewrite colours_length.
  rewrite !Nat.mod_small by done.
  apply (proj1 (List.NoDup_nth colours ""%string) colours_NoDup);
    by rewrite colours_length.
Qed.

Lemma cluster_size_app (i : nat) (l1 l2 : list Feature) :
  cluster_size i (l1 ++ l2) = cluster_size i l1 + cluster_size i l2.
Proof. unfold cluster_size. by rewrite List.filter_app, length_app. Qed.

Lemma cluster_size_cons (i : nat) (f : Feature) (l : list Feature) :
  cluster_size i (f :: l)
  = (if bool_decide (cluster_label f = Some i) then 1 else 0) + cluster_size i l.
Proof. unfold cluster_size. simpl. by destruct (bool_decide _). Qed.

(** The inner loop is [paint]. *)
Lemma foldl_colour_step (i : nat) (features : list Feature) (k : nat)
  (acc : list Feature) :
  foldl (colour_step i) (k, acc) features
  = (k + cluster_size i features, acc ++ paint i k features).
Proof.
  revert k acc. induction features as [|f fs IH]; intros k acc; simpl.
  - by rewrite Nat.add_0_r, app_nil_r.
  - rewrite cluster_size_cons. unfold colour_step at 2. simpl.
    destruct (bool_decide (cluster_label f = Some i)); simpl;
      rewrite IH, <- app_assoc; simpl.
    + replace (k + 1) with (S k) by lia. f_equal. lia.
    + done.
Qed.

Lemma colour_cluster_paint (features : list Feature) (i : nat) :
  colour_cluster features i = paint i 0 features.
Proof. unfold colour_cluster. by rewrite foldl_colour_step. Qed.

Lemma paint_labels (i k : nat) (features : list Feature) :
  map cluster_label (paint i k features) = map cluster_label features.
Proof.
  revert k. induction features as [|f fs IH]; intros k; simpl; [done|].
  destruct (bool_decide _); simpl; by rewrite IH.
Qed.

Lemma paint_lookup (i k j : nat) (features : list Feature) (f : Feature) :
  features !! j = Some f →
  paint i k features !! j
  = Some (if bool_decide (cluster_label f = Some i)
          then set_colour (palette (k + cluster_size i (take j features))) f
          else f).
Proof.
  revert k j. induction features as [|g fs IH]; intros k [|j] Hj; try done.
  - simpl in Hj. injection Hj as ->. simpl.
    destruct (bool_decide _); simpl; [|done].
    by rewrite Nat.add_0_r.
  - simpl in Hj. simpl paint. simpl take. rewrite cluster_size_cons.
    destruct (bool_decide (cluster_label g = Some i)); simpl;
      rewrite (IH _ _ Hj); [|done].
    by replace (S k + cluster_size i (take j fs))
      with (k + (1 + cluster_size i (take j fs))) by lia.
Qed.

(** The size of a cluster depends on the labels only. *)
Lemma cluster_size_labels (i j : nat) (l1 l2 : list Feature) :
  map cluster_label l1 = map cluster_label l2 →
  cluster_size i (take j l1) = cluster_size i (take j l2).
Proof.
  revert j l2. induction l1 as [|f l1 IH]; intros j [|g l2] Heq; try done.
  destruct j as [|j]; [done|]. simpl in Heq. injection Heq as Hfg Heq.
  simpl take. rewrite !cluster_size_cons, Hfg. f_equal. by apply IH.
Qed.

Lemma assign_colours_S (clusters : nat) (features : list Feature) :
  assign_colours (S clusters) features
  = paint clusters 0 (assign_colours clusters features).
Proof.
  unfold assign_colours. rewrite seq_S, foldl_app. simpl.
  apply colour_cluster_paint.
Qed.

Lemma assign_colours_labels (clusters : nat) (features : list Feature) :
  map cluster_label (assign_colours clusters features)
  = map cluster_label features.
Proof.
  induction clusters as [|n IH]; [done|].
  by rewrite assign_colours_S, paint_labels.
Qed.

(** After the outer loop, a feature of a cluster below [clusters] carries
    the colour of its rank among the features of its cluster; any other
    feature is unchanged. *)
Lemma assign_colours_lookup (clusters j : nat) (features : list Feature)
  (f : Feature) :
  features !! j = Some f →
  assign_colours clusters features !! j
  = Some (match cluster_label f with
          | Some l =>
              if bool_decide (l < clusters)
              then set_colour (palette (cluster_size l (take j features))) f
              else f
          | None => f
          end).
Proof.
  intros Hj. induction clusters as [|n IH]; [by destruct (cluster_label f)|].
  rewrite assign_colours_S, (paint_lookup _ _ _ _ _ IH).
  rewrite (cluster_size_labels n j _ features)
    by apply assign_colours_labels.
  destruct (cluster_label f) as [l|] eqn:Hl; simpl.
  - destruct (decide (l < n)) as [Hlt|Hge].
    + rewrite (bool_decide_true (l < n)), (bool_decide_true (l < S n)) by lia.
      simpl. rewrite Hl.
      rewrite bool_decide_false; [done|]. intros [= ->]. lia.
    + rewrite (bool_decide_false (l < n)) by lia. rewrite Hl.
      destruct (decide (l = n)) as [->|Hne].
      * rewrite bool_decide_true by done.
        by rewrite (bool_decide_true (n < S n)) by lia.
      * rewrite bool_decide_false by congruence.
        by rewrite (bool_decide_false (l < S n)) by lia.
  - rewrite Hl. by rewrite bool_decide_false.
Qed.

Lemma cluster_size_take_le (i j : nat) (l : list Feature) :
  cluster_size i (take j l) ≤ cluster_size i l.
Proof.
  rewrite <- (take_drop j l) at 2. rewrite cluster_size_app. lia.
Qed.

Lemma cluster_size_take_S (i j : nat) (l : list Feature) (f : Feature) :
  l !! j = Some f → cluster_label f = Some i →
  cluster_size i (take (S j) l) = cluster_size i (take j l) + 1.
Proof.
  intros Hj Hf. rewrite (take_S_r _ _ _ Hj), cluster_size_app.
  rewrite cluster_size_cons, bool_decide_true by done. done.
Qed.

(** The rank of a feature in its cluster grows along the list and stays
    below the size of the cluster. *)
Lemma rank_lt (i j1 j2 : nat) (l : list Feature) (f : Feature) :
  j1 < j2 → l !! j1 = Some f → cluster_label f = Some i →
  cluster_size i (take j1 l) < cluster_size i (take j2 l).
Proof.
  intros Hlt Hj Hf.
  pose proof (cluster_size_take_le i (S j1) (take j2 l)) as Hle.
  rewrite take_take, Nat.min_l in Hle by lia.
  rewrite (cluster_size_take_S _ _ _ _ Hj Hf) in Hle. lia.
Qed.

Lemma rank_bound (i j : nat) (l : list Feature) (f : Feature) :
  l !! j = Some f → cluster_label f = Some i →
  cluster_size i (take j l) < cluster_size i l.
Proof.
  intros Hj Hf. pose proof (cluster_size_take_le i (S j) l) as Hle.
  rewrite (cluster_size_take_S _ _ _ _ Hj Hf) in Hle. lia.
Qed.

(** What the loop did to the feature at [j], read back from the result. *)
Lemma assign_colours_inv (clusters j l : nat) (features : list Feature)
  (g : Feature) :
  l < clusters →
  assign_colours clusters features !! j = Some g → cluster_label g = Some l →
  ∃ f, features !! j = Some f ∧ cluster_label f = Some l
       ∧ g = set_colour (palette (cluster_size l (take j features))) f.
Proof.
  intros Hl Hg Hlabel.
  destruct (lookup_lt_is_Some_2 features j) as [f Hf].
  { apply lookup_lt_Some in Hg.
    rewrite <- (length_map cluster_label), assign_colours_labels in Hg.
    by rewrite length_map in Hg. }
  rewrite (assign_colours_lookup _ _ _ _ Hf) in Hg. injection Hg as <-.
  exists f. split; [done|].
  destruct (cluster_label f) as [l'|] eqn:Hl'.
  - case_bool_decide; simpl in Hlabel; rewrite Hl' in Hlabel;
      injection Hlabel as ->; [done | lia].
  - congruence.
Qed.

(** C4: for every cluster label below the number of clusters, the track
    at position [j] of the feature list that belongs to that cluster gets
    the colour [colours[k mod 11]], [k] being the number of tracks of the
    cluster before position [j]; and if the cluster has at most 11 tracks,
    no two of them get the same colour. *)
Theorem round_robin_colours (clusters : nat) (features : list Feature)
  (l : nat) :
  l < clusters →
  (∀ j f, features !! j = Some f → cluster_label f = Some l →
     assign_colours clusters features !! j
     = Some (set_colour
               (nth (cluster_size l (take j features) mod 11) colours ""%string)
               f))
  ∧ (cluster_size l features ≤ 11 →
     ∀ j1 j2 g1 g2, j1 ≠ j2 →
       assign_colours clusters features !! j1 = Some g1 →
       assign_colours clusters features !! j2 = Some g2 →
       cluster_label g1 = Some l → cluster_label g2 = Some l →
       colour g1 ≠ colour g2).
Proof.
  intros Hl. split.
  - intros j f Hj Hf. rewrite (assign_colours_lookup _ _ _ _ Hj), Hf.
    by rewrite bool_decide_true.
  - intros Hsize j1 j2 g1 g2 Hne Hg1 Hg2 Hl1 Hl2.
    destruct (assign_colours_inv _ _ _ _ _ Hl Hg1 Hl1) as (f1 & Hf1 & Hc1 & ->).
    destruct (assign_colours_inv _ _ _ _ _ Hl Hg2 Hl2) as (f2 & Hf2 & Hc2 & ->).
    simpl. intros [= Heq].
    pose proof (rank_bound _ _ _ _ Hf1 Hc1).
    pose proof (rank_bound _ _ _ _ Hf2 Hc2).
    apply palette_inj in Heq; [|lia..].
    destruct (decide (j1 < j2)).
    + pose proof (rank_lt l j1 j2 features f1 ltac:(done) Hf1 Hc1). lia.
    + pose proof (rank_lt l j2 j1 features f2 ltac:(lia) Hf2 Hc2). lia.
Qed.

(** ** Total distances *)

(** The two totals are sums over the same consecutive pairs of points:
    what holds of the miles and the kilometres of every pair, up to a
    share [tolerance] of the kilometres, holds of the totals. *)
Lemma total_distance_within (km miles : point → point → Q) (c tolerance : Q)
  (track_points : list RawPoint) :
  (∀ a b, Qabs (miles a b - c * km a b) <= tolerance * km a b)%Q →
  (Qabs (total_distance_mi miles track_points
         - c * total_distance_km km track_points)
   <= tolerance * total_distance_km km track_points)%Q.
Proof.
  intros Hc. unfold total_distance_mi, total_distance_km, total_distance.
  generalize (seq 0 (length track_points - 1)).
  assert (∀ (l : list nat) (x y : Q),
    (Qabs (x - c * y) <= tolerance * y)%Q →
    (Qabs
       (foldl (fun total i =>
                 total + miles (coords (nth i track_points (mk_RawPoint 0 0 0 0)))
                           (coords (nth (i + 1) track_points (mk_RawPoint 0 0 0 0))))
              x l
        - c * foldl (fun total i =>
                 total + km (coords (nth i track_points (mk_RawPoint 0 0 0 0)))
                           (coords (nth (i + 1) track_points (mk_RawPoint 0 0 0 0))))
              y l)
     <= tolerance
        * foldl (fun total i =>
                 total + km (coords (nth i track_points (mk_RawPoint 0 0 0 0)))
                           (coords (nth (i + 1) track_points (mk_RawPoint 0 0 0 0))))
              y l)%Q) as H.
  { induction l as [|i l IH]; intros x y Hxy; [done|]. simpl.
    apply IH.
    set (a := coords (nth i track_points (mk_RawPoint 0 0 0 0))).
    set (b := coords (nth (i + 1) track_points (mk_RawPoint 0 0 0 0))).
    assert (x + miles a b - c * (y + km a b)
            == (x - c * y) + (miles a b - c * km a b))%Q as -> by ring.
    eapply Qle_trans; [apply Qabs_triangle|].
    rewrite Qmult_plus_distr_r. by apply Qplus_le_compat. }
  intros l. apply H.
  assert (0 - c * 0 == 0)%Q as -> by ring.
  assert (tolerance * 0 == 0)%Q as -> by ring. apply Qle_refl.
Qed.

(** The miles that geopy derives from the kilometres are within the
    tolerance of 0.621371 times the kilometres. *)
Lemma statute_miles_close (km : point → point → Q) :
  (∀ a b, 0 <= km a b)%Q →
  ∀ a b, (Qabs (statute_miles km a b - miles_per_km * km a b)
          <= conversion_tolerance * km a b)%Q.
Proof.
  intros Hkm a b. specialize (Hkm a b).
  unfold statute_miles, km_per_mile, miles_per_km, conversion_tolerance.
  assert (km a b / (1609344 # 1000000) - (621371 # 1000000) * km a b
          == km a b * (1000000 # 1609344) - (621371 # 1000000) * km a b)%Q
    as -> by field.
  apply Qabs_Qle_condition. split; lra.
Qed.

(** C5, amended: the total in kilometres times 0.621371 is the total in
    miles, to within 2e-7 of the kilometres, when that holds of the two
    distances of every pair of consecutive points, as it does of the
    distances of geopy; the two totals are accumulated by separate loops
    over the same pairs. *)
Theorem total_distance_scale (km miles : point → point → Q)
  (track_points : list RawPoint) :
  (∀ a b, Qabs (miles a b - miles_per_km * km a b)
          <= conversion_tolerance * km a b)%Q →
  (Qabs (total_distance_km km track_points * miles_per_km
         - total_distance_mi miles track_points)
   <= conversion_tolerance * total_distance_km km track_points)%Q.
Proof.
  intros Hpair.
  pose proof (total_distance_within km miles miles_per_km
                conversion_tolerance track_points Hpair) as H.
  assert (total_distance_km km track_points * miles_per_km
          - total_distance_mi miles track_points
          == - (total_distance_mi miles track_points
                - miles_per_km * total_distance_km km track_points))%Q
    as -> by ring.
  by rewrite Qabs_opp.
Qed.

(** ** The model on concrete tracks *)

Example douglas_peucker_zigzag_fine :
  douglas_peucker sqrt_floor zigzag (1 # 10000) = Ok zigzag.
Proof. by vm_compute. Qed.

Example douglas_peucker_zigzag_coarse :
  douglas_peucker sqrt_floor zigzag 2 = Ok [ (0, 0); (2, 3); (4, 0) ]%Q.
Proof. by vm_compute. Qed.

Example douglas_peucker_negative_epsilon :
  douglas_peucker sqrt_floor zigzag (-1) = Raise RecursionError.
Proof. by vm_compute. Qed.

Example sevenpoint_climb :
  sevenpoint climb = Ok [100; 303 / 3; 510 / 5; 721 / 7; 520 / 5; 315 / 3; 106]%Q.
Proof. by vm_compute. Qed.

(** With a geometry library that rejects a line of one point, the track of
    one point stops the run before the next file is read. *)
Example one_point_track_aborts_run :
  process_files sqrt_floor taxicab taxicab first_of_line
    [one_point_track; two_point_track] [] = Raise GeometryError
  ∧ ∃ f, process_files sqrt_floor taxicab taxicab first_of_line
           [two_point_track] [] = Ok [f].
Proof. split; [by vm_compute | eexists; by vm_compute]. Qed.

Example assign_colours_twelve_walks :
  num_clusters twelve_walks = 2
  ∧ map colour (assign_colours (num_clusters twelve_walks) twelve_walks)
    = [Some "darkred"; Some "darkred"; Some "green"; Some "red";
       Some "green"; Some "red"; Some "blue"; Some "blue"; Some "gray";
       Some "purple"; Some "gray"; Some "black"]%string.
Proof. split; reflexivity. Qed.

(** ** Instances *)

(** C1 on [zigzag]. *)
Lemma douglas_peucker_endpoints_witness :
  2 ≤ length zigzag ∧ (0 <= 1 # 10000)%Q
  ∧ ∃ out, douglas_peucker sqrt_floor zigzag (1 # 10000) = Ok out
           ∧ head out = head zigzag ∧ last out = last zigzag.
Proof.
  assert (2 ≤ length zigzag) as H1 by (simpl; lia).
  assert (0 <= 1 # 10000)%Q as H2 by (unfold Qle; simpl; lia).
  split; [done|]. split; [done|].
  exact (douglas_peucker_endpoints sqrt_floor zigzag (1 # 10000) H1 H2).
Defined.

(** C7 on [zigzag], with a tolerance that removes two points. *)
Lemma douglas_peucker_idempotent_witness :
  2 ≤ length zigzag ∧ (0 <= 2)%Q
  ∧ ∃ out, douglas_peucker sqrt_floor zigzag 2 = Ok out
           ∧ douglas_peucker sqrt_floor out 2 = Ok out.
Proof.
  assert (2 ≤ length zigzag) as H1 by (simpl; lia).
  assert (0 <= 2)%Q as H2 by (unfold Qle; simpl; lia).
  split; [done|]. split; [done|].
  exact (douglas_peucker_idempotent sqrt_floor zigzag 2 H1 H2).
Defined.

(** C8 on [zigzag], between a fine and a coarse tolerance. *)
Lemma douglas_peucker_length_antitone_witness :
  2 ≤ length zigzag ∧ (0 <= 1 # 10000)%Q ∧ (1 # 10000 <= 2)%Q
  ∧ ∃ out1 out2, douglas_peucker sqrt_floor zigzag (1 # 10000) = Ok out1
                 ∧ douglas_peucker sqrt_floor zigzag 2 = Ok out2
                 ∧ length out2 ≤ length out1.
Proof.
  assert (2 ≤ length zigzag) as H1 by (simpl; lia).
  assert (0 <= 1 # 10000)%Q as H2 by (unfold Qle; simpl; lia).
  assert (1 # 10000 <= 2)%Q as H3 by (unfold Qle; simpl; lia).
  split; [done|]. split; [done|]. split; [done|].
  exact (douglas_peucker_length_antitone sqrt_floor zigzag (1 # 10000) 2
           H1 H2 H3).
Defined.

(** C3 as stated fails on a batch that holds only the track of one point:
    one point survives, and whatever the geometry library does, the run
    does not end as if that track had been skipped. *)
Lemma one_point_track_not_skipped :
  ¬ (∃ centroid, ∀ points,
       track_points sqrt_floor (raw_points one_point_track) = Ok points →
       length points < 2 →
       process_files sqrt_floor taxicab taxicab centroid [one_point_track] []
       = process_files sqrt_floor taxicab taxicab centroid [] []).
Proof.
  intros [centroid H].
  specialize (H _ (track_points_one sqrt_floor _) ltac:(simpl; lia)).
  simpl in H.
  rewrite (process_track_one_point sqrt_floor taxicab taxicab centroid
             one_point_track _ eq_refl) in H.
  by destruct (centroid _).
Qed.

(** The amended C3 on the same track, followed by a second file, with a
    geometry library that rejects a line of one point. *)
Lemma short_track_not_skipped_witness :
  track_points sqrt_floor (raw_points one_point_track)
  = Ok (raw_points one_point_track)
  ∧ length (raw_points one_point_track) < 2
  ∧ ∃ e, first_of_line (map coords (raw_points one_point_track)) = Raise e
         ∧ process_files sqrt_floor taxicab taxicab first_of_line
             [one_point_track; two_point_track] [] = Raise e.
Proof.
  assert (track_points sqrt_floor (raw_points one_point_track)
          = Ok (raw_points one_point_track)) as H1 by (by vm_compute).
  assert (length (raw_points one_point_track) < 2) as H2 by (simpl; lia).
  split; [done|]. split; [done|].
  destruct (short_track_not_skipped sqrt_floor taxicab taxicab first_of_line
              one_point_track [two_point_track] [] _ H1 H2)
    as (_ & _ & [Habort|(f & Hf & _)]); [done|].
  exfalso. vm_compute in Hf. discriminate.
Defined.

Lemma taxicab_nonneg (a b : point) : (0 <= taxicab a b)%Q.
Proof.
  unfold taxicab.
  pose proof (Qabs_nonneg (a.1 - b.1)). pose proof (Qabs_nonneg (a.2 - b.2)).
  lra.
Qed.

(** The amended C5 on the seven surviving points of [gentle], the miles
    being the kilometres divided by 1.609344. *)
Lemma total_distance_scale_witness :
  track_points sqrt_floor gentle = Ok gentle
  ∧ (∀ a b, Qabs (statute_miles taxicab a b - miles_per_km * taxicab a b)
            <= conversion_tolerance * taxicab a b)%Q
  ∧ (Qabs (total_distance_km taxicab gentle * miles_per_km
           - total_distance_mi (statute_miles taxicab) gentle)
     <= conversion_tolerance * total_distance_km taxicab gentle)%Q.
Proof.
  split; [by vm_compute|].
  split; [exact (statute_miles_close taxicab taxicab_nonneg)|].
  exact (total_distance_scale taxicab (statute_miles taxicab) gentle
           (statute_miles_close taxicab taxicab_nonneg)).
Defined.

(** C5 as stated fails on the seven surviving points of [gentle]: the
    kilometres times 1/0.621371 miss the miles by more than the miles
    themselves. *)
Lemma kilometres_over_factor_not_miles :
  track_points sqrt_floor gentle = Ok gentle
  ∧ (0 < total_distance_mi (statute_miles taxicab) gentle)%Q
  ∧ ¬ (Qabs (total_distance_km taxicab gentle * (1 / miles_per_km)
             - total_distance_mi (statute_miles taxicab) gentle)
       <= total_distance_mi (statute_miles taxicab) gentle)%Q.
Proof. split; [by vm_compute|]. split; by vm_compute. Qed.

(** C4 on cluster 0 of [twelve_walks]. *)
Lemma round_robin_colours_witness :
  0 < num_clusters twelve_walks
  ∧ (∀ j f, twelve_walks !! j = Some f → cluster_label f = Some 0 →
       assign_colours (num_clusters twelve_walks) twelve_walks !! j
       = Some (set_colour
                 (nth (cluster_size 0 (take j twelve_walks) mod 11) colours
                      ""%string) f))
  ∧ (cluster_size 0 twelve_walks ≤ 11 →
     ∀ j1 j2 g1 g2, j1 ≠ j2 →
       assign_colours (num_clusters twelve_walks) twelve_walks !! j1 = Some g1 →
       assign_colours (num_clusters twelve_walks) twelve_walks !! j2 = Some g2 →
       cluster_label g1 = Some 0 → cluster_label g2 = Some 0 →
       colour g1 ≠ colour g2).
Proof.
  assert (0 < num_clusters twelve_walks) as H by (vm_compute; lia).
  split; [done|].
  exact (round_robin_colours (num_clusters twelve_walks) twelve_walks 0 H).
Defined.

(** The amended C9 on the seven surviving points of [gentle]. *)
Lemma ascent_descent_of_series_witness :
  track_points sqrt_floor gentle = Ok gentle
  ∧ ∃ smoothed, sevenpoint gentle = Ok smoothed
      ∧ (0 < (ascent_descent smoothed).1)%Q
      ∧ py_int (ascent_descent smoothed).2 = 0%Z
      ∧ (0 <= py_int (ascent_descent smoothed).1)%Z.
Proof.
  split; [by vm_compute|].
  apply (proj1 (ascent_descent_of_series gentle)).
  - simpl. lia.
  - intros i p q Hp Hq.
    do 7 (destruct i as [|i];
          [simpl in Hp, Hq; try discriminate;
           injection Hp as <-; injection Hq as <-; reflexivity|]).
    discriminate.
Defined.

(** C9 as stated fails either way it is read.  On the accumulators: as
    the interpreter computes them, the eight surviving points of
    [plateau], all at 100.1 m, leave an ascent above 0 and a descent
    below 0.  On the reported values: the seven surviving points of
    [gentle] rise strictly, and the ascent reported is 0. *)
Lemma ascent_descent_not_as_claimed :
  (track_points sqrt_floor plateau = Ok plateau
   ∧ (∀ p, p ∈ plateau → elevation p = (1001 # 10)%Q)
   ∧ ∃ smoothed, sevenpoint_float (elevations_float plateau) = Ok smoothed
       ∧ (0 <? (ascent_descent_float smoothed).1)%float = true
       ∧ ((ascent_descent_float smoothed).2 <? 0)%float = true)
  ∧ (track_points sqrt_floor gentle = Ok gentle
     ∧ 7 ≤ length gentle
     ∧ (∀ i p q, gentle !! i = Some p → gentle !! (i + 1) = Some q →
                 (elevation p < elevation q)%Q)
     ∧ ∃ smoothed, sevenpoint gentle = Ok smoothed
         ∧ py_int (ascent_descent smoothed).1 = 0%Z).
Proof.
  split.
  - split; [by vm_compute|]. split.
    + intros p Hp. unfold plateau in Hp.
      repeat (apply elem_of_cons in Hp as [->|Hp]; [done|]).
      by apply elem_of_nil in Hp.
    + eexists. split; [by vm_compute|]. split; by vm_compute.
  - split; [by vm_compute|]. split; [simpl; lia|]. split.
    + intros i p q Hp Hq.
      do 7 (destruct i as [|i];
            [simpl in Hp, Hq; try discriminate;
             injection Hp as <-; injection Hq as <-; reflexivity|]).
      discriminate.
    + eexists. split; [by vm_compute|]. by vm_compute.
Qed.

(** The smoothed series of the plateau, as the interpreter prints it:
    100.1, 100.09999999999998, 100.1, 100.10000000000001,
    100.10000000000001, 100.1, 100.09999999999998, 100.1. *)
Example sevenpoint_float_plateau :
  sevenpoint_float (elevations_float plateau)
  = Ok [ 0x1.9066666666666p+6; 0x1.9066666666665p+6; 0x1.9066666666666p+6;
         0x1.9066666666667p+6; 0x1.9066666666667p+6; 0x1.9066666666666p+6;
         0x1.9066666666665p+6; 0x1.9066666666666p+6 ]%float.
Proof. reflexivity. Qed.

(** On both tracks the binary64 totals are less than 1 m away from 0 where
    the amended C9 reports 0, so that [int()] reports 0 as well; the ascent
    of [gentle] is above 0 and its descent is 0. *)
Example totals_float_plateau :
  match sevenpoint_float (elevations_float plateau) with
  | Ok smoothed =>
      ((ascent_descent_float smoothed).1 <? 1)%float
      && (-1 <? (ascent_descent_float smoothed).2)%float
  | Raise _ => false
  end = true.
Proof. reflexivity. Qed.

Example totals_float_gentle :
  match sevenpoint_float (elevations_float gentle) with
  | Ok smoothed =>
      (0 <? (ascent_descent_float smoothed).1)%float
      && ((ascent_descent_float smoothed).1 <? 1)%float
      && ((ascent_descent_float smoothed).2 =? 0)%float
  | Raise _ => false
  end = true.
Proof. reflexivity. Qed.

(** * Further properties *)

(** ** The simplifier *)

Section SimplifierMore.

Variable sqrt : Q → Q.

(** X1: the result of the simplifier is a subsequence of its input: it
    holds no point that the input does not hold, keeps the order, and is no
    longer than the input of at least two points. *)
Theorem douglas_peucker_sublist (points : list point) (epsilon : Q) :
  2 ≤ length points → (0 <= epsilon)%Q →
  ∃ out, douglas_peucker sqrt points epsilon = Ok out
         ∧ out `sublist_of` points
         ∧ length out ≤ length points.
Proof.
  intros Hlen Heps.
  destruct (two_points points Hlen) as (p0 & mid & pl & ->).
  destruct (douglas_peucker_shape sqrt p0 mid pl epsilon Heps)
    as (s & Hs & Hsub).
  assert ((p0 :: s ++ [pl]) `sublist_of` (p0 :: mid ++ [pl])) as Hout
    by (constructor; by apply sublist_app).
  exists (p0 :: s ++ [pl]). split; [done|]. split; [done|].
  by apply sublist_length.
Qed.

(** X2: the whole list collapses to its two ends exactly when no point
    between them is farther than epsilon from the line through them. *)
Theorem douglas_peucker_collapse (p0 : point) (mid : list point) (pl : point)
  (epsilon : Q) :
  (0 <= epsilon)%Q →
  douglas_peucker sqrt (p0 :: mid ++ [pl]) epsilon = Ok [p0; pl]
  ↔ Forall (fun x => (perpendicular_distance sqrt x p0 pl <= epsilon)%Q) mid.
Proof.
  intros Heps. unfold douglas_peucker.
  rewrite simplify_S, farthest_scan.
  destruct (scan _ mid 1 (0%Q, 0)) as [M j] eqn:E.
  destruct (Qgtb M epsilon) eqn:HM.
  - split.
    + intros H. exfalso.
      destruct (split_at_index mid j) as (l1 & x & l2 & -> & ->);
        [by eapply scan_index|].
      rewrite take_split, drop_split in H.
      destruct (simplify_spec sqrt (length (p0 :: (l1 ++ x :: l2) ++ [pl]))
                  p0 l1 x epsilon Heps) as (s1 & Hs1 & _).
      { simpl. rewrite !length_app. simpl. lia. }
      destruct (simplify_spec sqrt (length (p0 :: (l1 ++ x :: l2) ++ [pl]))
                  x l2 pl epsilon Heps) as (s2 & Hs2 & _).
      { simpl. rewrite !length_app. simpl. lia. }
      rewrite Hs1, Hs2, !bind_Ok, removelast_snoc in H.
      injection H as H. apply (f_equal length) in H.
      rewrite !length_app in H. simpl in H. rewrite length_app in H.
      simpl in H. lia.
    + intros Hall. exfalso. apply Qgtb_true in HM.
      pose proof (scan_upper _ mid 1 0%Q 0 epsilon Hall Heps) as Hup.
      rewrite E in Hup. simpl in Hup. exact (Qlt_not_le _ _ HM Hup).
  - rewrite last_cons_app. apply Qgtb_false in HM. split; [|done].
    intros _. apply scan_inv in E as (_ & Hall & _).
    eapply Forall_impl; [exact Hall|]. intros x Hx. simpl in Hx.
    by eapply Qle_trans.
Qed.

Lemma covered_app_r (epsilon : Q) (out rest : list point) (x : point) :
  covered sqrt epsilon out x → covered sqrt epsilon (out ++ rest) x.
Proof.
  intros (l1 & a & b & l2 & -> & Hd). exists l1, a, b, (l2 ++ rest).
  split; [|done]. by rewrite <- app_assoc.
Qed.

Lemma covered_app_l (epsilon : Q) (front out : list point) (x : point) :
  covered sqrt epsilon out x → covered sqrt epsilon (front ++ out) x.
Proof.
  intros (l1 & a & b & l2 & -> & Hd). exists (front ++ l1), a, b, l2.
  split; [|done]. by rewrite <- app_assoc.
Qed.

(** Every point between the two ends is kept, or within epsilon of the
    line through two neighbours of the result. *)
Lemma simplify_covers fuel p0 mid pl epsilon :
  (0 <= epsilon)%Q → length mid + 2 ≤ fuel →
  ∃ s, simplify sqrt fuel (p0 :: mid ++ [pl]) epsilon = Ok (p0 :: s ++ [pl])
       ∧ ∀ y, y ∈ mid → y ∈ s ∨ covered sqrt epsilon (p0 :: s ++ [pl]) y.
Proof.
  intros Heps. revert p0 mid pl.
  induction fuel as [|fuel IH]; intros p0 mid pl Hfuel; [lia|].
  rewrite simplify_S, farthest_scan.
  destruct (scan _ mid 1 (0%Q, 0)) as [M j] eqn:E.
  destruct (Qgtb M epsilon) eqn:HM.
  - destruct (split_at_index mid j) as (l1 & x & l2 & -> & ->);
      [by eapply scan_index|].
    rewrite length_app in Hfuel. simpl in Hfuel.
    rewrite take_split, drop_split.
    destruct (IH p0 l1 x) as (s1 & -> & Hc1); [lia|].
    destruct (IH x l2 pl) as (s2 & -> & Hc2); [lia|].
    exists (s1 ++ x :: s2). rewrite !bind_Ok, removelast_snoc. simpl.
    split; [by rewrite <- app_assoc|].
    intros y Hy. apply elem_of_app in Hy as [Hy|Hy].
    + destruct (Hc1 y Hy) as [Hin|Hcov].
      * left. apply elem_of_app. by left.
      * right.
        replace (p0 :: (s1 ++ x :: s2) ++ [pl])
          with ((p0 :: s1 ++ [x]) ++ (s2 ++ [pl]))
          by (simpl; by rewrite <- !app_assoc).
        by apply covered_app_r.
    + apply elem_of_cons in Hy as [->|Hy].
      * left. apply elem_of_app. right. apply list_elem_of_here.
      * destruct (Hc2 y Hy) as [Hin|Hcov].
        -- left. apply elem_of_app. right. by apply list_elem_of_further.
        -- right.
           replace (p0 :: (s1 ++ x :: s2) ++ [pl])
             with ((p0 :: s1) ++ (x :: s2 ++ [pl]))
             by (simpl; by rewrite <- !app_assoc).
           by apply covered_app_l.
  - exists []. rewrite last_cons_app. split; [done|].
    intros y Hy. right. exists [], p0, pl, []. split; [done|].
    apply Qgtb_false in HM. apply scan_inv in E as (_ & Hall & _).
    rewrite Forall_forall in Hall. eapply Qle_trans; [by apply Hall|done].
Qed.

(** X3: no point is lost by more than epsilon: every point of the input
    is in the result, or within epsilon of the line through two
    neighbouring points of the result. *)
Theorem douglas_peucker_within_epsilon (points : list point) (epsilon : Q) :
  2 ≤ length points → (0 <= epsilon)%Q →
  ∃ out, douglas_peucker sqrt points epsilon = Ok out
         ∧ ∀ y, y ∈ points → y ∈ out ∨ covered sqrt epsilon out y.
Proof.
  intros Hlen Heps.
  destruct (two_points points Hlen) as (p0 & mid & pl & ->).
  destruct (simplify_covers (S (length (p0 :: mid ++ [pl]))) p0 mid pl epsilon)
    as (s & Hs & Hcov); [done | simpl; rewrite length_app; simpl; lia |].
  exists (p0 :: s ++ [pl]). split; [done|].
  intros y Hy. apply elem_of_cons in Hy as [->|Hy];
    [left; apply list_elem_of_here|].
  apply elem_of_app in Hy as [Hy|Hy].
  - destruct (Hcov y Hy) as [Hin|Hc]; [|by right].
    left. apply list_elem_of_further, elem_of_app. by left.
  - apply list_elem_of_singleton in Hy as ->.
    left. apply list_elem_of_further, elem_of_app. right.
    apply list_elem_of_here.
Qed.

Lemma farthest_step_fst (points : list point) (l : list nat) (st : Q * nat) :
  (st.1 <= (foldl (farthest_step sqrt points) st l).1)%Q.
Proof.
  revert st. induction l as [|i l IH]; intros st; simpl; [apply Qle_refl|].
  eapply Qle_trans; [|apply IH].
  unfold farthest_step.
  destruct (Qgtb _ st.1) eqn:H; [|apply Qle_refl].
  apply Qgtb_true in H. by apply Qlt_le_weak.
Qed.

(** X4: with a negative epsilon the recursion never reaches its last
    branch, whatever the input: however deep it is allowed to go, the
    outcome is [RecursionError]. *)
Theorem simplify_negative_epsilon (fuel : nat) (points : list point)
  (epsilon : Q) :
  (epsilon < 0)%Q → simplify sqrt fuel points epsilon = Raise RecursionError.
Proof.
  intros Heps. revert points.
  induction fuel as [|fuel IH]; intros points; [done|].
  rewrite simplify_S.
  pose proof (farthest_step_fst points (seq 1 (length points - 2)) (0%Q, 0))
    as Hpos.
  fold (farthest sqrt points) in Hpos.
  destruct (farthest sqrt points) as [M j]. simpl in Hpos.
  replace (Qgtb M epsilon) with true
    by (symmetry; apply Qgtb_true; by eapply Qlt_le_trans).
  by rewrite (IH (take (j + 1) points)).
Qed.

(** X5: the two inputs too short to be a line: without points the
    simplifier raises [IndexError], and a single point comes back twice, a
    result longer than the input. *)
Theorem douglas_peucker_short_input (epsilon : Q) :
  (0 <= epsilon)%Q →
  douglas_peucker sqrt [] epsilon = Raise IndexError
  ∧ ∀ p, douglas_peucker sqrt [p] epsilon = Ok [p; p].
Proof.
  intros Heps. split.
  - unfold douglas_peucker. rewrite simplify_S. unfold farthest. simpl.
    by replace (Qgtb 0 epsilon) with false by (symmetry; by apply Qgtb_false).
  - intros p. by apply douglas_peucker_single.
Qed.

End SimplifierMore.

(** ** Surviving points and distances *)

Section MetricsMore.

Variable sqrt : Q → Q.
Variable geodesic_miles : point → point → Q.

(** X6: on a track of at least two raw points the first and the last raw
    point survive the selection, so at least two points reach the
    computation of the distances, and never more than were recorded. *)
Theorem track_points_ends (raw : list RawPoint) :
  2 ≤ length raw →
  ∃ points, track_points sqrt raw = Ok points
            ∧ head points = head raw ∧ last points = last raw
            ∧ 2 ≤ length points ≤ length raw.
Proof.
  intros Hlen. destruct raw as [|r0 [|r1 raw]]; simpl in Hlen; [lia..|].
  destruct (exists_last (l:=r1 :: raw)) as (rmid & rl & Heq); [done|].
  rewrite Heq.
  destruct (simplified_coords_total sqrt (r0 :: rmid ++ [rl]))
    as (simplified & Hs & Hhd & Hlast); [done|].
  destruct (select_points_ends r0 rmid rl simplified) as [s Hsel];
    [done | by rewrite Hlast, app_comm_cons, last_snoc |].
  exists (r0 :: s ++ [rl]). unfold track_points. rewrite Hs, bind_Ok, Hsel.
  split; [done|]. split; [done|].
  split; [by rewrite !app_comm_cons, !last_snoc|].
  split; [simpl; rewrite length_app; simpl; lia|].
  rewrite <- Hsel. apply sublist_length, select_points_sublist.
Qed.

Lemma cumulative_loop (track_points : list RawPoint) (m i : nat) (t : Q)
  (acc : list Q) :
  foldl (cumulative_step geodesic_miles track_points) (t, acc) (seq i m)
  = (nth m (t :: running_totals geodesic_miles track_points t i m) 0%Q,
     acc ++ running_totals geodesic_miles track_points t i m).
Proof.
  revert i t acc. induction m as [|m IH]; intros i t acc.
  - by rewrite app_nil_r.
  - cbn [seq foldl running_totals]. unfold cumulative_step at 2.
    cbn [fst snd]. by rewrite IH, <- app_assoc.
Qed.

Lemma total_distance_loop (track_points : list RawPoint) (m i : nat) (t : Q) :
  foldl (fun total j =>
           (total
            + geodesic_miles
                (coords (nth j track_points (mk_RawPoint 0 0 0 0)))
                (coords (nth (j + 1) track_points (mk_RawPoint 0 0 0 0))))%Q)
        t (seq i m)
  = nth m (t :: running_totals geodesic_miles track_points t (S i) m) 0%Q.
Proof.
  revert i t. induction m as [|m IH]; intros i t; [done|].
  cbn [seq foldl running_totals]. rewrite IH.
  replace (S i - 1) with i by lia. by replace (i + 1) with (S i) by lia.
Qed.

Lemma running_totals_length (track_points : list RawPoint) (t : Q) (i m : nat) :
  length (running_totals geodesic_miles track_points t i m) = m.
Proof. revert t i. induction m as [|m IH]; intros t i; simpl; by rewrite ?IH. Qed.

(** Each running total is the one before plus the distance of one more
    pair of neighbours. *)
Lemma running_totals_step (track_points : list RawPoint) (t : Q) (i m k : nat) :
  k < m →
  nth (S k) (t :: running_totals geodesic_miles track_points t i m) 0%Q
  = (nth k (t :: running_totals geodesic_miles track_points t i m) 0
     + geodesic_miles
         (coords (nth (i + k - 1) track_points (mk_RawPoint 0 0 0 0)))
         (coords (nth (i + k) track_points (mk_RawPoint 0 0 0 0))))%Q.
Proof.
  revert t i k. induction m as [|m IH]; intros t i k Hk; [lia|].
  destruct k as [|k].
  - simpl. by rewrite Nat.add_0_r.
  - cbn [running_totals]. change (nth (S (S k)) (?a :: ?l) 0%Q)
      with (nth (S k) l 0%Q).
    change (nth (S k) (?a :: ?l) 0%Q) with (nth k l 0%Q) at 2.
    rewrite (IH _ (S i) k) by lia.
    by replace (S i + k) with (i + S k) by lia.
Qed.

(** X7: [cumulative_distances] has one entry for each point of a track
    that has a point; it starts at 0, each entry is the one before plus
    the distance in miles between the two points, and the last entry is
    [total_distance_mi]. *)
Theorem cumulative_distances_spec (track_points : list RawPoint) :
  track_points ≠ [] →
  let cumulative := cumulative_distances geodesic_miles track_points in
  length cumulative = length track_points
  ∧ head cumulative = Some 0%Q
  ∧ last cumulative = Some (total_distance_mi geodesic_miles track_points)
  ∧ ∀ k, k + 1 < length track_points →
      nth (k + 1) cumulative 0%Q
      = (nth k cumulative 0
         + geodesic_miles
             (coords (nth k track_points (mk_RawPoint 0 0 0 0)))
             (coords (nth (k + 1) track_points (mk_RawPoint 0 0 0 0))))%Q.
Proof.
  intros Hne. unfold cumulative_distances, total_distance_mi, total_distance.
  rewrite cumulative_loop, total_distance_loop. cbn [snd app].
  set (m := length track_points - 1).
  assert (length track_points = S m) as Hm
    by (subst m; destruct track_points; [done | simpl; lia]).
  cbn zeta. split; [simpl; by rewrite running_totals_length|].
  split; [done|]. split.
  - rewrite last_lookup. simpl length. rewrite running_totals_length.
    set (l := 0%Q :: running_totals geodesic_miles track_points 0 1 m).
    destruct (lookup_lt_is_Some_2 l (Init.Nat.pred (S m))) as [x Hx].
    { subst l. simpl. rewrite running_totals_length. lia. }
    rewrite Hx. f_equal. symmetry. by apply nth_lookup_Some.
  - intros k Hk. replace (k + 1) with (S k) by lia.
    rewrite running_totals_step by lia.
    by replace (1 + k - 1) with k by lia.
Qed.

(** X8: when no distance is negative, [cumulative_distances] never
    decreases along the track. *)
Theorem cumulative_distances_monotone (track_points : list RawPoint) :
  (∀ a b, 0 <= geodesic_miles a b)%Q →
  ∀ k, k + 1 < length track_points →
    (nth k (cumulative_distances geodesic_miles track_points) 0
     <= nth (k + 1) (cumulative_distances geodesic_miles track_points) 0)%Q.
Proof.
  intros Hpos k Hk.
  destruct (cumulative_distances_spec track_points) as (_ & _ & _ & Hstep).
  { intros ->. simpl in Hk. lia. }
  rewrite (Hstep k Hk).
  pose proof (Hpos (coords (nth k track_points (mk_RawPoint 0 0 0 0)))
                (coords (nth (k + 1) track_points (mk_RawPoint 0 0 0 0)))).
  lra.
Qed.

End MetricsMore.

(** ** Smoothing, ascent and descent on any track *)

(** Whatever the series, the loop only adds positive changes to the
    ascent and negative changes to the descent. *)
Lemma signs_of_totals_loop (s : list Q) (l : list nat) (st : Q * Q) :
  (0 <= st.1)%Q → (st.2 <= 0)%Q →
  let st' := foldl (ascent_descent_step s) st l in
  (0 <= st'.1)%Q ∧ (st'.2 <= 0)%Q.
Proof.
  revert st. induction l as [|i l IH]; intros st H1 H2; simpl; [done|].
  apply IH; unfold ascent_descent_step; case_bool_decide; try done;
    destruct (Qgtb (nth i s 0 - nth (i - 1) s 0)%Q 0%Q) eqn:Hup; simpl;
    try done;
    try (apply Qgtb_true in Hup; lra);
    destruct (Qgtb 0%Q (nth i s 0 - nth (i - 1) s 0)%Q) eqn:Hdown; simpl;
    try done;
    apply Qgtb_true in Hdown; lra.
Qed.

Lemma signs_of_totals (s : list Q) :
  (0 <= (ascent_descent s).1)%Q ∧ ((ascent_descent s).2 <= 0)%Q.
Proof.
  unfold ascent_descent. apply signs_of_totals_loop; simpl; lra.
Qed.

(** X9: on every track the smoothing returns, the accumulated ascent is
    not negative and the accumulated descent not positive, also after
    [int()]: the descent is kept as a number below or equal to 0. *)
Theorem ascent_descent_signs (track_points : list RawPoint) :
  ∃ smoothed, sevenpoint track_points = Ok smoothed
    ∧ (0 <= (ascent_descent smoothed).1)%Q
    ∧ ((ascent_descent smoothed).2 <= 0)%Q
    ∧ (0 <= py_int (ascent_descent smoothed).1)%Z
    ∧ (py_int (ascent_descent smoothed).2 <= 0)%Z.
Proof.
  eexists. split; [apply sevenpoint_values|].
  set (s := map (smooth_value track_points) (seq 0 (length track_points))).
  destruct (signs_of_totals s) as (H1 & H2).
  split; [done|]. split; [done|].
  split; [by apply py_int_nonneg | by apply py_int_nonpos].
Qed.

(** ** Duration on any track *)

Lemma timedelta_seconds_small (s : Z) :
  (0 <= s < 86400)%Z → timedelta_seconds s = mk_timedelta 0 s 0.
Proof.
  intros Hs. unfold timedelta_seconds, timedelta_of_microseconds.
  rewrite (Z.div_small (s * 1000000) 86400000000) by lia.
  rewrite (Z.mod_small (s * 1000000) 86400000000) by lia.
  by rewrite Z.div_mul, Z.mod_mul.
Qed.

(** X11: on every track that has a point the duration is computed, and
    it is always a whole number of seconds below one day, whatever the two
    times, the last one before the first one included. *)
Theorem track_duration_below_one_day (track_points : list RawPoint) :
  track_points ≠ [] →
  ∃ s, track_duration track_points = Ok (mk_timedelta 0 s 0)
       ∧ (0 <= s < 86400)%Z.
Proof.
  intros Hne.
  destruct track_points as [|first tp] eqn:Htp; [done|]. rewrite <- Htp.
  destruct (exists_last (l:=track_points)) as (l' & final & Heq);
    [by rewrite Htp|].
  rewrite (track_duration_value track_points first final);
    [|by rewrite Htp|by rewrite Heq, last_snoc].
  set (d := (time final - time first)%Z).
  pose proof (Z.mod_pos_bound d 86400000000 ltac:(done)) as Hmod.
  assert (0 <= d mod 86400000000 / 1000000 < 86400)%Z as Hs.
  { split; [apply Z.div_pos; lia|].
    apply Z.div_lt_upper_bound; lia. }
  eexists. split; [by rewrite timedelta_seconds_small|done].
Qed.

(** ** Colours of crowded clusters *)

Lemma palette_wrap (k : nat) : palette (k + 11) = palette k.
Proof.
  unfold palette. rewrite colours_length. f_equal.
  by rewrite <- (Nat.Div0.mod_add k 1 11).
Qed.

Lemma palette_in_colours (k : nat) : palette k ∈ colours.
Proof.
  unfold palette. apply list_elem_of_In, nth_In.
  rewrite colours_length. by apply Nat.mod_upper_bound.
Qed.

(** Every rank below the size of a cluster is the rank of one of its
    tracks. *)
Lemma rank_exists (l r : nat) (features : list Feature) :
  r < cluster_size l features →
  ∃ j f, features !! j = Some f ∧ cluster_label f = Some l
         ∧ cluster_size l (take j features) = r.
Proof.
  revert r. induction features as [|f fs IH]; intros r Hr;
    [unfold cluster_size in Hr; simpl in Hr; lia|].
  rewrite cluster_size_cons in Hr.
  case_bool_decide as Hf.
  - destruct r as [|r]; [by exists 0, f|].
    destruct (IH r) as (j & g & Hj & Hg & Hrank); [lia|].
    exists (S j), g. split; [done|]. split; [done|].
    simpl take. rewrite cluster_size_cons, bool_decide_true by done. lia.
  - destruct (IH r) as (j & g & Hj & Hg & Hrank); [simpl in Hr; lia|].
    exists (S j), g. split; [done|]. split; [done|].
    simpl take. rewrite cluster_size_cons, bool_decide_false by done. lia.
Qed.

(** X12: the colours come round again after eleven tracks: in a cluster
    of more than 11 tracks, two tracks get the same colour. *)
Theorem crowded_cluster_repeats (clusters : nat) (features : list Feature)
  (l : nat) :
  l < clusters → 11 < cluster_size l features →
  ∃ j1 j2 g1 g2, j1 ≠ j2
    ∧ assign_colours clusters features !! j1 = Some g1
    ∧ assign_colours clusters features !! j2 = Some g2
    ∧ cluster_label g1 = Some l ∧ cluster_label g2 = Some l
    ∧ colour g1 = colour g2.
Proof.
  intros Hl Hsize.
  destruct (rank_exists l 0 features) as (j1 & f1 & Hj1 & Hf1 & Hr1); [lia|].
  destruct (rank_exists l 11 features) as (j2 & f2 & Hj2 & Hf2 & Hr2); [lia|].
  exists j1, j2,
    (set_colour (palette (cluster_size l (take j1 features))) f1),
    (set_colour (palette (cluster_size l (take j2 features))) f2).
  split; [intros ->; lia|].
  rewrite (assign_colours_lookup _ _ _ _ Hj1), (assign_colours_lookup _ _ _ _ Hj2).
  rewrite Hf1, Hf2, bool_decide_true by done.
  do 4 (split; [done|]). simpl. rewrite Hr1, Hr2.
  exact (f_equal Some (eq_sym (palette_wrap 0))).
Qed.

(** X13: the colouring loop touches nothing but the colour: the list
    keeps its length and its order, every feature keeps its name, geometry,
    numbers and label, and a colour that is set comes from [colours]. *)
Theorem assign_colours_only_colours (clusters : nat) (features : list Feature) :
  length (assign_colours clusters features) = length features
  ∧ ∀ j f, features !! j = Some f →
      ∃ g, assign_colours clusters features !! j = Some g
        ∧ name g = name f ∧ line_coords g = line_coords f
        ∧ distance_km g = distance_km f ∧ distance_mi g = distance_mi f
        ∧ duration g = duration f
        ∧ ascent g = ascent f ∧ descent g = descent f
        ∧ center g = center f ∧ start g = start f
        ∧ cluster_label g = cluster_label f
        ∧ (colour g = colour f ∨ ∃ c, c ∈ colours ∧ colour g = Some c).
Proof.
  split.
  - rewrite <- (length_map cluster_label), assign_colours_labels.
    apply length_map.
  - intros j f Hj. rewrite (assign_colours_lookup _ _ _ _ Hj).
    assert (∃ g, Some f = Some g
              ∧ name g = name f ∧ line_coords g = line_coords f
              ∧ distance_km g = distance_km f ∧ distance_mi g = distance_mi f
              ∧ duration g = duration f
              ∧ ascent g = ascent f ∧ descent g = descent f
              ∧ center g = center f ∧ start g = start f
              ∧ cluster_label g = cluster_label f
              ∧ (colour g = colour f ∨ ∃ c, c ∈ colours ∧ colour g = Some c))
      as Hsame by (exists f; repeat (split; [done|]); by left).
    destruct (cluster_label f) as [l|] eqn:Hlab; [|done].
    case_bool_decide; [|done].
    eexists. split; [done|]. do 9 (split; [done|]). split; [by simpl|].
    right. eexists. split; [apply palette_in_colours | done].
Qed.

(** ** The y-axis of the elevation profiles *)

Lemma max_elevation_step_le (l : list (Q * Q * Q * Q)) (m : Q) :
  (m <= foldl max_elevation_step m l)%Q
  ∧ ∀ i, i ∈ l → (i.1.2 <= foldl max_elevation_step m l)%Q.
Proof.
  revert m. induction l as [|c l IH]; intros m; simpl.
  - split; [apply Qle_refl|]. intros i Hi. by apply elem_of_nil in Hi.
  - destruct (IH (max_elevation_step m c)) as [H1 H2].
    assert (m <= max_elevation_step m c ∧ c.1.2 <= max_elevation_step m c)%Q
      as [Hm Hc].
    { unfold max_elevation_step. destruct (Qgtb c.1.2 m) eqn:E.
      - apply Qgtb_true in E. split; lra.
      - apply Qgtb_false in E. split; lra. }
    split; [by eapply Qle_trans|].
    intros i Hi. apply elem_of_cons in Hi as [->|Hi]; [|by apply H2].
    by eapply Qle_trans.
Qed.

Lemma max_elevation_le (features : list Feature) (m : Q) :
  let top :=
    foldl (fun m feature => foldl max_elevation_step m (line_coords feature))
          m features in
  (m <= top)%Q
  ∧ ∀ f i, f ∈ features → i ∈ line_coords f → (i.1.2 <= top)%Q.
Proof.
  revert m. induction features as [|g fs IH]; intros m; simpl.
  - split; [apply Qle_refl|]. intros f i Hf. by apply elem_of_nil in Hf.
  - destruct (IH (foldl max_elevation_step m (line_coords g))) as [H1 H2].
    destruct (max_elevation_step_le (line_coords g) m) as [H3 H4].
    split; [by eapply Qle_trans|].
    intros f i Hf Hi. apply elem_of_cons in Hf as [->|Hf]; [|by eapply H2].
    eapply Qle_trans; [by apply H4 | done].
Qed.

(** The remainder of a division by 100 lies in [0, 100), and what is left
    is a multiple of 100. *)
Lemma py_mod_100 (x : Q) :
  (0 <= py_mod x 100 ∧ py_mod x 100 < 100
   ∧ x - py_mod x 100 == 100 * inject_Z (Qfloor (x / 100)))%Q.
Proof.
  unfold py_mod.
  pose proof (Qfloor_le (x / 100)) as Hlo.
  pose proof (Qlt_floor (x / 100)) as Hhi.
  rewrite inject_Z_plus in Hhi. change (inject_Z 1) with 1%Q in Hhi.
  set (k := inject_Z (Qfloor (x / 100))) in *.
  assert (x / 100 == x * (1 # 100))%Q as E by field.
  rewrite E in Hlo, Hhi.
  split; [lra|]. split; [lra | ring].
Qed.

(** X14: the top of the y-axis is a multiple of 100 that is not
    negative, no elevation of any track lies above it, and it is less than
    100 above the highest of them (or above 0, if none is positive). *)
Theorem axis_top_spec (features : list Feature) :
  (∃ k : Z, (0 <= k)%Z ∧ (axis_top features == 100 * inject_Z k)%Q)
  ∧ (∀ f i, f ∈ features → i ∈ line_coords f → (i.1.2 <= axis_top features)%Q)
  ∧ (max_elevation features <= axis_top features)%Q
  ∧ (axis_top features < max_elevation features + 100)%Q.
Proof.
  destruct (max_elevation_le features 0) as [Hpos Hmax].
  fold (max_elevation features) in Hpos, Hmax.
  destruct (py_mod_100 (max_elevation features)) as (Hr0 & Hr1 & Hr).
  assert (0 <= Qfloor (max_elevation features / 100))%Z as Hk.
  { rewrite <- (Qfloor_Z 0). apply Qfloor_resp_le.
    assert (max_elevation features / 100
            == max_elevation features * (1 # 100))%Q as -> by field.
    change (inject_Z 0) with 0%Q. lra. }
  assert ((∃ k : Z, (0 <= k)%Z ∧ (axis_top features == 100 * inject_Z k)%Q)
          ∧ (max_elevation features <= axis_top features)%Q
          ∧ (axis_top features < max_elevation features + 100)%Q)
    as (Hmult & Hle & Hlt).
  { unfold axis_top. cbv zeta.
    destruct (Qeq_bool (py_mod (max_elevation features) 100) 0) eqn:E; simpl.
    - apply Qeq_bool_iff in E. split; [|split; lra].
      exists (Qfloor (max_elevation features / 100)). split; [done|]. lra.
    - apply Qeq_bool_neq in E. split; [|split; lra].
      exists (Qfloor (max_elevation features / 100) + 1)%Z. split; [lia|].
      rewrite inject_Z_plus. change (inject_Z 1) with 1%Q. lra. }
  split; [done|]. split; [|done].
  intros f i Hf Hi. eapply Qle_trans; [by eapply Hmax | done].
Qed.

(** ** Choice of the files: nothing is processed twice *)

Lemma substring_0_length (s : string) : substring 0 (String.length s) s = s.
Proof. induction s as [|c s IH]; simpl; by rewrite ?IH. Qed.

Lemma substring_split (n : nat) (s : string) :
  n ≤ String.length s →
  (substring 0 n s ++ substring n (String.length s - n) s)%string = s.
Proof.
  revert n. induction s as [|c s IH]; intros n Hn.
  - by destruct n.
  - destruct n as [|n].
    + simpl. by rewrite substring_0_length.
    + simpl in Hn. simpl. rewrite IH by lia. done.
Qed.

(** A name that ends with [".gpx"] is its first part, up to the last four
    characters, followed by [".gpx"]. *)
Lemma endswith_gpx (filename : string) :
  endswith filename ".gpx" = true →
  (substring 0 (String.length filename - 4) filename ++ ".gpx")%string
  = filename.
Proof.
  unfold endswith. intros H. apply andb_prop in H as [Hlen Heq].
  apply Nat.leb_le in Hlen. apply String.eqb_eq in Heq. simpl in Hlen, Heq.
  pose proof (substring_split (String.length filename - 4) filename
                ltac:(lia)) as Hsplit.
  replace (String.length filename - (String.length filename - 4)) with 4
    in Hsplit by lia.
  by rewrite Heq in Hsplit.
Qed.

Lemma py_str_in_In (x : string) (l : list string) :
  py_str_in x l = true ↔ In x l.
Proof.
  unfold py_str_in. rewrite existsb_exists. split.
  - intros (y & Hy & Heq). apply String.eqb_eq in Heq. by subst.
  - intros Hx. exists x. split; [done | apply String.eqb_refl].
Qed.

Lemma filter_nil {A : Type} (f : A → bool) (l : list A) :
  (∀ x, In x l → f x = false) → List.filter f l = [].
Proof.
  induction l as [|x l IH]; intros H; [done|]. simpl.
  rewrite (H x) by (by left). apply IH. intros y Hy. apply H. by right.
Qed.

Section SecondRun.

Variable sqrt : Q → Q.
Variable geodesic_km : point → point → Q.
Variable geodesic_miles : point → point → Q.
Variable centroid : list point → result point.

(** [gpxpy.parse] of the file with a given name, down to the points of
    its first track. *)
Variable parse : string → list RawPoint.

Lemma process_track_name (t : Track) (f : Feature) :
  process_track sqrt geodesic_km geodesic_miles centroid t = Ok f →
  name f = substring 0 (String.length (filename t) - 4) (filename t).
Proof.
  unfold process_track.
  destruct (track_points sqrt (raw_points t)) as [points|]; [|done].
  rewrite bind_Ok. destruct (sevenpoint points) as [smoothed|]; [|done].
  rewrite bind_Ok.
  destruct (centroid (map coords points)) as [c|]; [|done].
  rewrite bind_Ok.
  destruct (py_index (map coords points) 0) as [p|]; [|done].
  rewrite bind_Ok. destruct (track_duration points) as [d|]; [|done].
  rewrite bind_Ok. by intros [= <-].
Qed.

(** The loop keeps the features it starts with and appends one feature
    for each file, named after the file. *)
Lemma process_files_appends (tracks : list Track) (features features' : list Feature) :
  process_files sqrt geodesic_km geodesic_miles centroid tracks features
  = Ok features' →
  ∃ new, features' = features ++ new
         ∧ map name new
           = map (fun t => substring 0 (String.length (filename t) - 4)
                                     (filename t)) tracks.
Proof.
  revert features. induction tracks as [|t ts IH]; intros features H.
  - injection H as <-. exists []. by rewrite app_nil_r.
  - simpl in H.
    destruct (process_track _ _ _ _ t) as [f|] eqn:Hf; [|done].
    rewrite bind_Ok in H. apply IH in H as (new & -> & Hnames).
    exists (f :: new). split; [by rewrite <- app_assoc|].
    simpl. by rewrite Hnames, (process_track_name _ _ Hf).
Qed.

(** X15: after a run that processed every chosen file, the same listing
    of the directory leaves no file to choose: no track is processed
    twice.  The run keeps the features it found, in their order, and adds
    one for each chosen file. *)
Theorem second_run_selects_nothing (listing : list string)
  (features features' : list Feature) :
  process_files sqrt geodesic_km geodesic_miles centroid
    (map (fun filename => mk_Track filename (parse filename))
         (select_files listing features))
    features = Ok features' →
  select_files listing features' = []
  ∧ features `prefix_of` features'
  ∧ length features' = length features + length (select_files listing features).
Proof.
  intros H. apply process_files_appends in H as (new & -> & Hnames).
  rewrite map_map in Hnames. simpl in Hnames.
  split; [|split].
  - unfold select_files at 1. rewrite filter_nil; [done|].
    intros filename Hin. apply andb_false_iff.
    destruct (endswith filename ".gpx") eqn:Hgpx; [right | by left].
    apply negb_false_iff, py_str_in_In.
    unfold existing_track_list. rewrite map_app, in_app_iff.
    destruct (py_str_in filename (existing_track_list features)) eqn:Hold.
    + left. by apply py_str_in_In.
    + right. rewrite <- (endswith_gpx filename Hgpx) at 1.
      rewrite <- (map_map name (fun n => (n ++ ".gpx")%string)).
      apply (in_map (fun n => (n ++ ".gpx")%string)).
      rewrite Hnames.
      apply (in_map (fun fn => substring 0 (String.length fn - 4) fn)).
      unfold select_files. rewrite <- in_rev. apply filter_In.
      split; [done|]. by rewrite Hgpx, Hold.
  - by exists new.
  - rewrite length_app. f_equal.
    rewrite <- (length_map name), Hnames. by rewrite length_map.
Qed.

End SecondRun.

(** ** The downloadable tracks *)

Section GpxFacts.

Variable sqrt : Q → Q.
Variable geodesic_km : point → point → Q.
Variable geodesic_miles : point → point → Q.
Variable centroid : list point → result point.
Variable str : Q → string.

Lemma process_track_line_coords (t : Track) (f : Feature)
  (points : list RawPoint) :
  process_track sqrt geodesic_km geodesic_miles centroid t = Ok f →
  track_points sqrt (raw_points t) = Ok points →
  line_coords f
  = geojson_LineString
      (imap (fun i p => (longitude p, latitude p, elevation p,
                         nth i (cumulative_distances geodesic_miles points)
                             0%Q))
            points).
Proof.
  unfold process_track. intros H Hpoints. rewrite Hpoints, bind_Ok in H.
  destruct (sevenpoint points) as [smoothed|]; [|done].
  rewrite bind_Ok in H.
  destruct (centroid (map coords points)) as [c|]; [|done].
  rewrite bind_Ok in H.
  destruct (py_index (map coords points) 0) as [p|]; [|done].
  rewrite bind_Ok in H. destruct (track_duration points) as [d|]; [|done].
  rewrite bind_Ok in H. by injection H as <-.
Qed.

(** X16: the GPX document written for the feature of a track holds one
    [trkpt] for each surviving point, in order, with the latitude of the
    point as [lat], its longitude as [lon] and its elevation as [ele], each
    rounded to 6 decimals as the geometry of the feature holds it; and the
    download link of the feature ends with the name of the file written. *)
Theorem gpx_of_processed_track (t : Track) (f : Feature)
  (points : list RawPoint) :
  process_track sqrt geodesic_km geodesic_miles centroid t = Ok f →
  track_points sqrt (raw_points t) = Ok points →
  gpx_of str f
  = Element "gpx"
      [("version", "1.1"); ("creator", "Your Creator Name")]%string None
      [Element "trk" [] None
         [Element "trkseg" [] None
            (map (fun p =>
                    Element "trkpt"
                      [("lat", str (py_round (latitude p) 6));
                       ("lon", str (py_round (longitude p) 6))]%string
                      None
                      [Element "ele" []
                         (Some (str (py_round (elevation p) 6))) []])
                 points)]]
  ∧ download_link t
    = ("https://moorwalkers.github.io/track_downloads/"
       ++ track_name f ++ ".gpx")%string.
Proof.
  intros Hf Hpoints. split.
  - unfold gpx_of. rewrite (process_track_line_coords _ _ _ Hf Hpoints).
    do 4 f_equal. unfold geojson_LineString.
    change (map ?g ?l) with (g <$> l).
    rewrite <- list_fmap_compose, fmap_imap, <- imap_const. reflexivity.
  - unfold download_link, track_name.
    by rewrite (process_track_name _ _ _ _ _ _ Hf).
Qed.

End GpxFacts.

(** ** The colour of the grid box *)

(** X17: the four tests on the distance leave no gap and do not overlap:
    every distance gets exactly the colour of its band, never the empty
    string the variable starts with. *)
Theorem grid_colour_bands (distance_mi : Q) :
  ((distance_mi < 5)%Q ∧ grid_colour distance_mi = "#C0FFC0"%string)
  ∨ ((5 <= distance_mi)%Q ∧ (distance_mi < 6)%Q
     ∧ grid_colour distance_mi = "#90EE90"%string)
  ∨ ((6 <= distance_mi)%Q ∧ (distance_mi < 7)%Q
     ∧ grid_colour distance_mi = "#F1C40F"%string)
  ∨ ((7 <= distance_mi)%Q ∧ grid_colour distance_mi = "#FFA07A"%string).
Proof.
  unfold grid_colour, Qltb, Qgeb. cbv zeta.
  destruct (Qgtb 5 distance_mi) eqn:H5;
    destruct (Qgtb 6 distance_mi) eqn:H6;
    destruct (Qgtb 7 distance_mi) eqn:H7;
    rewrite ?Qgtb_true, ?Qgtb_false in *; simpl;
    first [ left; split; [lra | reflexivity]
          | right; left; split; [lra|]; split; [lra | reflexivity]
          | right; right; left; split; [lra|]; split; [lra | reflexivity]
          | right; right; right; split; [lra | reflexivity]
          | exfalso; lra ].
Qed.

(** ** The date filter of the quiz statistics *)

Section FilterFacts.

Variable walk : Type.
Variable walk_date : walk → Z.

Lemma filter_loop (start_dt end_dt : option Z) (features filtered : list walk) :
  foldl (filter_step walk walk_date start_dt end_dt) filtered features
  = filtered ++ List.filter (in_range walk walk_date start_dt end_dt) features.
Proof.
  revert filtered. induction features as [|f fs IH]; intros filtered; simpl.
  - by rewrite app_nil_r.
  - rewrite IH. unfold filter_step, in_range.
    destruct (match start_dt with Some _ => _ | None => _ end); simpl;
      [done|].
    destruct (match end_dt with Some _ => _ | None => _ end); simpl;
      [done|].
    by rewrite <- app_assoc.
Qed.

(** X18: the walks kept are those of the list, in their order, whose date
    is not before the midnight that starts [START_DATE] and not after the
    midnight that starts [END_DATE]; a walk later on the day of [END_DATE]
    is left out. *)
Theorem filter_by_date_spec (START_DATE END_DATE : option Z)
  (features : list walk) :
  let kept := filter_by_date walk walk_date START_DATE END_DATE features in
  kept `sublist_of` features
  ∧ (∀ f, f ∈ kept
          ↔ f ∈ features
            ∧ (∀ d, START_DATE = Some d → (midnight d <= walk_date f)%Z)
            ∧ (∀ d, END_DATE = Some d → (walk_date f <= midnight d)%Z))
  ∧ (∀ f d, END_DATE = Some d → (midnight d < walk_date f)%Z → f ∉ kept).
Proof.
  assert (∀ f, in_range walk walk_date (midnight <$> START_DATE)
                 (midnight <$> END_DATE) f
               = true
               ↔ (∀ d, START_DATE = Some d → (midnight d <= walk_date f)%Z)
                 ∧ (∀ d, END_DATE = Some d → (walk_date f <= midnight d)%Z))
    as Hrange.
  { intros f. unfold in_range. rewrite andb_true_iff, !negb_true_iff.
    destruct START_DATE as [s|], END_DATE as [e|]; simpl;
      rewrite ?Z.ltb_ge, ?Z.gtb_ltb, ?Z.ltb_ge; split;
      try (intros [H1 H2]; split; intros d [= <-]; done);
      try (intros [H1 H2]; split; auto; done);
      try (intros [H1 H2]; split; [done | intros d [= <-]; done]);
      try (intros [H1 H2]; split; [intros d [= <-]; done | done]). }
  assert (filter_by_date walk walk_date START_DATE END_DATE features
          = List.filter
              (in_range walk walk_date (midnight <$> START_DATE)
                 (midnight <$> END_DATE))
              features) as ->.
  { unfold filter_by_date.
    destruct START_DATE, END_DATE; rewrite ?filter_loop; try done.
    simpl. induction features as [|f fs IH]; [done|]. simpl. by f_equal. }
  cbv zeta.
  assert (∀ f, f ∈ List.filter
                 (in_range walk walk_date (midnight <$> START_DATE)
                 (midnight <$> END_DATE))
                 features
               ↔ f ∈ features
                 ∧ (∀ d, START_DATE = Some d → (midnight d <= walk_date f)%Z)
                 ∧ (∀ d, END_DATE = Some d → (walk_date f <= midnight d)%Z))
    as Hkept.
  { intros f. by rewrite !list_elem_of_In, filter_In, Hrange. }
  split; [|split; [done|]].
  - clear Hkept. induction features as [|f fs IH]; simpl; [done|].
    destruct (in_range _ _ _ _ f); by constructor.
  - intros f d Hd Hlate [_ [_ Hend]]%Hkept. specialize (Hend d Hd). lia.
Qed.

End FilterFacts.

(** ** Instances of the further properties *)

Lemma zero_le_two : (0 <= 2)%Q.
Proof. unfold Qle. simpl. lia. Defined.

(** X1 on [zigzag]. *)
Lemma douglas_peucker_sublist_witness :
  2 ≤ length zigzag ∧ (0 <= 2)%Q
  ∧ ∃ out, douglas_peucker sqrt_floor zigzag 2 = Ok out
           ∧ out `sublist_of` zigzag ∧ length out ≤ length zigzag.
Proof.
  assert (2 ≤ length zigzag) as H1 by (simpl; lia).
  split; [done|]. split; [exact zero_le_two|].
  exact (douglas_peucker_sublist sqrt_floor zigzag 2 H1 zero_le_two).
Defined.

(** X2 on a straight line of four points. *)
Lemma douglas_peucker_collapse_witness :
  (0 <= 2)%Q
  ∧ (douglas_peucker sqrt_floor ((0, 0)%Q :: straight ++ [(3, 0)%Q]) 2
     = Ok [(0, 0)%Q; (3, 0)%Q]
     ↔ Forall (fun x => (perpendicular_distance sqrt_floor x (0, 0) (3, 0)
                         <= 2)%Q) straight).
Proof.
  split; [exact zero_le_two|].
  exact (douglas_peucker_collapse sqrt_floor (0, 0)%Q straight (3, 0)%Q 2
           zero_le_two).
Defined.

(** X3 on [zigzag]. *)
Lemma douglas_peucker_within_epsilon_witness :
  2 ≤ length zigzag ∧ (0 <= 2)%Q
  ∧ ∃ out, douglas_peucker sqrt_floor zigzag 2 = Ok out
           ∧ ∀ y, y ∈ zigzag → y ∈ out ∨ covered sqrt_floor 2 out y.
Proof.
  assert (2 ≤ length zigzag) as H1 by (simpl; lia).
  split; [done|]. split; [exact zero_le_two|].
  exact (douglas_peucker_within_epsilon sqrt_floor zigzag 2 H1 zero_le_two).
Defined.

(** X4 on [zigzag], with a depth of a thousand calls. *)
Lemma simplify_negative_epsilon_witness :
  (-1 < 0)%Q ∧ simplify sqrt_floor 1000 zigzag (-1) = Raise RecursionError.
Proof.
  assert (-1 < 0)%Q as H by reflexivity.
  split; [done|]. exact (simplify_negative_epsilon sqrt_floor 1000 zigzag (-1) H).
Defined.

(** X5 with the tolerance of [create_data]. *)
Lemma douglas_peucker_short_input_witness :
  (0 <= 1 # 10000)%Q
  ∧ douglas_peucker sqrt_floor [] (1 # 10000) = Raise IndexError
  ∧ ∀ p, douglas_peucker sqrt_floor [p] (1 # 10000) = Ok [p; p].
Proof.
  assert (0 <= 1 # 10000)%Q as H by (unfold Qle; simpl; lia).
  split; [done|]. exact (douglas_peucker_short_input sqrt_floor (1 # 10000) H).
Defined.

(** X6 on [climb]. *)
Lemma track_points_ends_witness :
  2 ≤ length climb
  ∧ ∃ points, track_points sqrt_floor climb = Ok points
              ∧ head points = head climb ∧ last points = last climb
              ∧ 2 ≤ length points ≤ length climb.
Proof.
  assert (2 ≤ length climb) as H by (simpl; lia).
  split; [done|]. exact (track_points_ends sqrt_floor climb H).
Defined.

(** X7 on [climb]. *)
Lemma cumulative_distances_spec_witness :
  climb ≠ []
  ∧ length (cumulative_distances taxicab_miles climb) = length climb
  ∧ head (cumulative_distances taxicab_miles climb) = Some 0%Q
  ∧ last (cumulative_distances taxicab_miles climb)
    = Some (total_distance_mi taxicab_miles climb)
  ∧ ∀ k, k + 1 < length climb →
      nth (k + 1) (cumulative_distances taxicab_miles climb) 0%Q
      = (nth k (cumulative_distances taxicab_miles climb) 0
         + taxicab_miles
             (coords (nth k climb (mk_RawPoint 0 0 0 0)))
             (coords (nth (k + 1) climb (mk_RawPoint 0 0 0 0))))%Q.
Proof.
  assert (climb ≠ []) as H by discriminate.
  split; [done|]. exact (cumulative_distances_spec taxicab_miles climb H).
Defined.

Lemma taxicab_miles_nonneg (a b : point) : (0 <= taxicab_miles a b)%Q.
Proof.
  unfold taxicab_miles, taxicab. apply Qmult_le_0_compat; [done|].
  pose proof (Qabs_nonneg (a.1 - b.1)). pose proof (Qabs_nonneg (a.2 - b.2)).
  lra.
Defined.

(** X8 on [climb]. *)
Lemma cumulative_distances_monotone_witness :
  (∀ a b, 0 <= taxicab_miles a b)%Q
  ∧ ∀ k, k + 1 < length climb →
      (nth k (cumulative_distances taxicab_miles climb) 0
       <= nth (k + 1) (cumulative_distances taxicab_miles climb) 0)%Q.
Proof.
  split; [exact taxicab_miles_nonneg|].
  exact (cumulative_distances_monotone taxicab_miles climb
           taxicab_miles_nonneg).
Defined.

(** X11 on [overnight_track]. *)
Lemma track_duration_below_one_day_witness :
  overnight_track ≠ []
  ∧ ∃ s, track_duration overnight_track = Ok (mk_timedelta 0 s 0)
         ∧ (0 <= s < 86400)%Z.
Proof.
  assert (overnight_track ≠ []) as H by discriminate.
  split; [done|]. exact (track_duration_below_one_day overnight_track H).
Defined.

(** X12 on twelve walks that KMeans puts into one of two clusters. *)
Lemma crowded_cluster_repeats_witness :
  0 < num_clusters crowded_walks ∧ 11 < cluster_size 0 crowded_walks
  ∧ ∃ j1 j2 g1 g2, j1 ≠ j2
      ∧ assign_colours (num_clusters crowded_walks) crowded_walks !! j1
        = Some g1
      ∧ assign_colours (num_clusters crowded_walks) crowded_walks !! j2
        = Some g2
      ∧ cluster_label g1 = Some 0 ∧ cluster_label g2 = Some 0
      ∧ colour g1 = colour g2.
Proof.
  assert (0 < num_clusters crowded_walks) as H1 by (vm_compute; lia).
  assert (11 < cluster_size 0 crowded_walks) as H2 by (vm_compute; lia).
  split; [done|]. split; [done|].
  exact (crowded_cluster_repeats (num_clusters crowded_walks) crowded_walks 0
           H1 H2).
Defined.

(** X15 on a directory with two tracks and a text file, the collection
    being empty before the run. *)
Lemma second_run_selects_nothing_witness :
  ∃ features',
    process_files sqrt_floor taxicab taxicab_miles first_of_line
      (map (fun filename => mk_Track filename (parse_example filename))
           (select_files listing_example []))
      [] = Ok features'
    ∧ select_files listing_example features' = []
    ∧ [] `prefix_of` features'
    ∧ length features'
      = length ([] : list Feature) + length (select_files listing_example []).
Proof.
  destruct (process_files sqrt_floor taxicab taxicab_miles first_of_line
              (map (fun filename => mk_Track filename (parse_example filename))
                   (select_files listing_example [])) [])
    as [features'|e] eqn:H; [|vm_compute in H; discriminate].
  exists features'. split; [done|].
  exact (second_run_selects_nothing sqrt_floor taxicab taxicab_miles
           first_of_line parse_example listing_example [] features' H).
Defined.

(** X16 on [two_point_track]. *)
Lemma gpx_of_processed_track_witness :
  ∃ f points,
    process_track sqrt_floor taxicab taxicab_miles first_of_line
      two_point_track = Ok f
    ∧ track_points sqrt_floor (raw_points two_point_track) = Ok points
    ∧ gpx_of str_fraction f
      = Element "gpx"
          [("version", "1.1"); ("creator", "Your Creator Name")]%string None
          [Element "trk" [] None
             [Element "trkseg" [] None
                (map (fun p =>
                        Element "trkpt"
                          [("lat", str_fraction (py_round (latitude p) 6));
                           ("lon", str_fraction (py_round (longitude p) 6))]%string
                          None
                          [Element "ele" []
                             (Some (str_fraction (py_round (elevation p) 6)))
                             []])
                     points)]]
    ∧ download_link two_point_track
      = ("https://moorwalkers.github.io/track_downloads/"
         ++ track_name f ++ ".gpx")%string.
Proof.
  destruct (process_track sqrt_floor taxicab taxicab_miles first_of_line
              two_point_track) as [f|e] eqn:Hf;
    [|vm_compute in Hf; discriminate].
  destruct (track_points sqrt_floor (raw_points two_point_track))
    as [points|e] eqn:Hp; [|vm_compute in Hp; discriminate].
  exists f, points. split; [done|]. split; [done|].
  exact (gpx_of_processed_track sqrt_floor taxicab taxicab_miles first_of_line
           str_fraction two_point_track f points Hf Hp).
Defined.

Example save_tracks_as_gpx_names :
  map fst (save_tracks_as_gpx str_fraction
             [unlabelled "2024-05-02 @ 10-00-00"])
  = ["2024-05-02_10-00-00.gpx"%string].
Proof. reflexivity. Qed.

Example select_files_example :
  select_files listing_example [unlabelled "2024-05-02 @ 10-00-00"]
  = ["2024-05-03 @ 09-30-00.gpx"%string].
Proof. reflexivity. Qed.

Example axis_top_example :
  (axis_top [ {| name := ""; line_coords := [(0, 0, 467, 0)%Q];
                 distance_km := 0; distance_mi := 0;
                 duration := mk_timedelta 0 0 0; ascent := 0; descent := 0;
                 center := origin; start := origin;
                 cluster_label := None; colour := None |} ]
   == 500)%Q.
Proof. reflexivity. Qed.
